(** * Signature verification cache of btcd (package txscript)

    A shallow embedding of [txscript/sigcache.go] and
    [txscript/sigcache_string.go]: the key derivation [newSigKey] /
    [newSigKeyString], and the two cache variants [SigCache] and
    [StringSigCache] with their operations [Exists] and [Add].

    Conventions of the embedding.
    - A Go [byte] is a [Byte.byte]; a [[]byte] and a [[32]byte] are lists of
      bytes (a [[32]byte] has length 32, see [sigKey_length]).
    - A Go [string] is a [String.string]; [string(b)] and [[]byte(s)] are
      [string_of_list_byte] and [list_byte_of_string].
    - [map[K]struct{}] is a finite set [gset K]. The order in which a
      [range] statement visits the map is chosen by the Go runtime: it is an
      input of every call that iterates ([range_order]).
    - [crypto/rand.Read] is an input of every call that draws: [Some b] when
      it filled the buffer with [b], [None] when it returned an error.
    - [uint] and [int] are the 64-bit types, as integers in [Z] with their
      wrap-around written out.
    - The read/write lock is not modelled: the operations are taken one at
      a time, in the total order the lock imposes. *)

From Stdlib Require Import ZArith List Lia.
From Stdlib.Strings Require Import Byte String.
From stdpp Require Import base gmap sets list strings.
Import ListNotations.
Open Scope Z_scope.

#[local] Set Warnings "-clear-no-such-hyp".

(** ** Bytes *)

Abbreviation bytes := (list byte).

#[global] Instance byte_eq_dec : EqDecision byte := Byte.byte_eq_dec.
#[global] Instance byte_countable : Countable byte :=
  inj_countable Byte.to_N Byte.of_N Byte.of_to_N.

Definition byte_to_Z (b : byte) : Z := Z.of_N (Byte.to_N b).

Definition byte_of_Z (z : Z) : byte :=
  match Byte.of_N (Z.to_N (z mod 256)) with
  | Some b => b
  | None => x00
  end.

(** [bytes.Compare(a, b)]: lexicographic comparison of two byte slices,
    bytes compared as unsigned numbers, a proper prefix being smaller;
    the result is -1, 0 or 1. *)
Fixpoint bytes_Compare (a b : bytes) : Z :=
  match a, b with
  | [], [] => 0
  | [], _ :: _ => -1
  | _ :: _, [] => 1
  | x :: a', y :: b' =>
      if byte_to_Z x <? byte_to_Z y then -1
      else if byte_to_Z y <? byte_to_Z x then 1
      else bytes_Compare a' b'
  end.

(** [copy(dst, src)], as the new contents of [dst]: the first
    [min (len dst) (len src)] bytes of [src] overwrite those of [dst]. *)
Definition copy (dst src : bytes) : bytes :=
  firstn (length dst) src ++ skipn (length src) dst.

(** ** SHA-256 (FIPS 180-4), the function behind [crypto/sha256] *)

Module SHA256.

Definition w32 (x : Z) : Z := x mod 2 ^ 32.

Definition add32 (x y : Z) : Z := w32 (x + y).

Definition rotr (n x : Z) : Z :=
  Z.lor (Z.shiftr x n) (w32 (Z.shiftl x (32 - n))).

Definition not32 (x : Z) : Z := Z.lxor x 4294967295.

Definition Ch (x y z : Z) : Z := Z.lxor (Z.land x y) (Z.land (not32 x) z).

Definition Maj (x y z : Z) : Z :=
  Z.lxor (Z.lxor (Z.land x y) (Z.land x z)) (Z.land y z).

Definition Sigma0 (x : Z) : Z :=
  Z.lxor (Z.lxor (rotr 2 x) (rotr 13 x)) (rotr 22 x).

Definition Sigma1 (x : Z) : Z :=
  Z.lxor (Z.lxor (rotr 6 x) (rotr 11 x)) (rotr 25 x).

Definition sigma0 (x : Z) : Z :=
  Z.lxor (Z.lxor (rotr 7 x) (rotr 18 x)) (Z.shiftr x 3).

Definition sigma1 (x : Z) : Z :=
  Z.lxor (Z.lxor (rotr 17 x) (rotr 19 x)) (Z.shiftr x 10).

(** The constants are defined the way the standard derives them: from the
    fractional parts of the square roots and of the cube roots of the first
    prime numbers. *)
Definition is_prime (n : Z) : bool :=
  (1 <? n)
  && forallb (fun d => negb (n mod d =? 0))
             (List.map Z.of_nat (seq 2 (Z.to_nat n - 2))).

Definition first_primes (k : nat) : list Z :=
  firstn k (List.filter is_prime (List.map Z.of_nat (seq 2 310))).

(** The integer cube root of [n < 2 ^ (3 * bits)], one bit at a time. *)
Fixpoint icbrt (bits : nat) (r n : Z) : Z :=
  match bits with
  | O => r
  | S b =>
      let c := r + 2 ^ Z.of_nat b in
      if c * c * c <=? n then icbrt b c n else icbrt b r n
  end.

(** The first 32 bits of the fractional part of the cube root of [p]. *)
Definition frac_cbrt (p : Z) : Z := w32 (icbrt 36 0 (p * 2 ^ 96)).

(** The first 32 bits of the fractional part of the square root of [p]. *)
Definition frac_sqrt (p : Z) : Z := w32 (Z.sqrt (p * 2 ^ 64)).

(** The 64 round constants. *)
Definition K : list Z :=
  Eval vm_compute in List.map frac_cbrt (first_primes 64).

(** The eight working words. *)
Record state : Type := mkState {
  ha : Z; hb : Z; hc : Z; hd : Z; he : Z; hf : Z; hg : Z; hh : Z
}.

Definition state_of_list (l : list Z) : state :=
  mkState (nth 0 l 0) (nth 1 l 0) (nth 2 l 0) (nth 3 l 0)
          (nth 4 l 0) (nth 5 l 0) (nth 6 l 0) (nth 7 l 0).

(** The initial hash value. *)
Definition init : state :=
  Eval vm_compute in state_of_list (List.map frac_sqrt (first_primes 8)).

(** Big-endian words of a block, and big-endian bytes of a word. *)
Fixpoint be_words (l : bytes) : list Z :=
  match l with
  | b0 :: b1 :: b2 :: b3 :: l' =>
      (byte_to_Z b0 * 16777216 + byte_to_Z b1 * 65536
       + byte_to_Z b2 * 256 + byte_to_Z b3) :: be_words l'
  | _ => []
  end.

Definition be32 (x : Z) : bytes :=
  [ byte_of_Z (Z.shiftr x 24); byte_of_Z (Z.shiftr x 16);
    byte_of_Z (Z.shiftr x 8); byte_of_Z x ].

Definition be64 (x : Z) : bytes :=
  be32 (Z.shiftr x 32) ++ be32 x.

(** The message schedule: [win] holds W[t] .. W[t+15]. *)
Fixpoint schedule (n : nat) (win : list Z) : list Z :=
  match n with
  | O => []
  | S n' =>
      match win with
      | [] => []
      | w0 :: rest =>
          let w16 :=
            add32 (add32 (sigma1 (nth 14 win 0)) (nth 9 win 0))
                  (add32 (sigma0 (nth 1 win 0)) w0) in
          w0 :: schedule n' (rest ++ [w16])
      end
  end.

Definition round (s : state) (kw : Z * Z) : state :=
  let t1 :=
    add32 (add32 (add32 (hh s) (Sigma1 (he s))) (Ch (he s) (hf s) (hg s)))
          (add32 (fst kw) (snd kw)) in
  let t2 := add32 (Sigma0 (ha s)) (Maj (ha s) (hb s) (hc s)) in
  mkState (add32 t1 t2) (ha s) (hb s) (hc s)
          (add32 (hd s) t1) (he s) (hf s) (hg s).

Definition compress (s : state) (block : bytes) : state :=
  let w := schedule 64 (be_words block) in
  let r := fold_left round (combine K w) s in
  mkState (add32 (ha s) (ha r)) (add32 (hb s) (hb r))
          (add32 (hc s) (hc r)) (add32 (hd s) (hd r))
          (add32 (he s) (he r)) (add32 (hf s) (hf r))
          (add32 (hg s) (hg r)) (add32 (hh s) (hh r)).

(** Padding: a 1 bit, zeros up to 56 modulo 64, the bit length on 64 bits. *)
Definition pad (msg : bytes) : bytes :=
  let len := Z.of_nat (length msg) in
  msg ++ [x80] ++ repeat x00 (Z.to_nat ((55 - len) mod 64))
      ++ be64 (8 * len).

Fixpoint blocks (n : nat) (s : state) (l : bytes) : state :=
  match n with
  | O => s
  | S n' =>
      match l with
      | [] => s
      | _ => blocks n' (compress s (firstn 64 l)) (skipn 64 l)
      end
  end.

Definition digest (s : state) : bytes :=
  be32 (ha s) ++ be32 (hb s) ++ be32 (hc s) ++ be32 (hd s)
  ++ be32 (he s) ++ be32 (hf s) ++ be32 (hg s) ++ be32 (hh s).

(** [sha256.Sum256]. *)
Definition Sum256 (msg : bytes) : bytes :=
  let p := pad msg in digest (blocks (length p) init p).

End SHA256.


(** Bytes written as a hexadecimal string, two digits a byte. *)
Definition hex_digit (c : Ascii.ascii) : Z :=
  let n := Z.of_N (Ascii.N_of_ascii c) in
  if (48 <=? n) && (n <=? 57) then n - 48
  else if (97 <=? n) && (n <=? 102) then n - 87
  else if (65 <=? n) && (n <=? 70) then n - 55
  else 0.

Fixpoint of_hex (s : string) : bytes :=
  match s with
  | String hi (String lo s') =>
      byte_of_Z (16 * hex_digit hi + hex_digit lo) :: of_hex s'
  | _ => []
  end.

(** ** The packages the cache is built on *)

(** Modelled from the spec: the constant [wire.HashSize] is declared in
    package [wire], outside the two files; the spec gives the width of a
    key and of a digest as 256 bits, that is 32 bytes. *)
Definition HashSize : nat := 32.

(** Package [btcec]: the cache uses a signature and a public key through
    their serializations only ([sig.Serialize()],
    [pubKey.SerializeCompressed()]). *)
Class Btcec : Type := {
  Signature : Type;
  PublicKey : Type;
  Serialize : Signature -> bytes;
  SerializeCompressed : PublicKey -> bytes
}.

(** Package [crypto/sha256] through the [hash.Hash] interface: [Write]
    adds data to the running hash, [Sum b] appends the hash of all the data
    written so far to [b]. *)
Module sha256.

Record digest : Type := { written : bytes }.

Definition New : digest := {| written := [] |}.

Definition Write (d : digest) (p : bytes) : digest :=
  {| written := written d ++ p |}.

Definition Sum (d : digest) (b : bytes) : bytes :=
  b ++ SHA256.Sum256 (written d).

End sha256.

(** ** Machine integers: [int] and [uint] on 64 bits *)

Definition MaxUint : Z := 2 ^ 64 - 1.

(** Wrap-around of a signed 64-bit result. *)
Definition wrap_int (z : Z) : Z := (z + 2 ^ 63) mod 2 ^ 64 - 2 ^ 63.

Definition int_add (x y : Z) : Z := wrap_int (x + y).

(** The conversion [uint(x)] of an [int]. *)
Definition uint (z : Z) : Z := z mod 2 ^ 64.

(** [len(m)] of a map, an [int]. *)
Definition len `{Countable K} (m : gset K) : Z := Z.of_nat (size m).

(** ** The environment of a call *)

(** What a call of [Add] takes from outside the cache: the outcome of
    [rand.Read(randHashBytes)] ([None]: an error) and the order in which
    [range s.validSigs] visits the keys. *)
Record env (K : Type) : Type := {
  rand_Read : option bytes;
  range_order : list K
}.
Arguments rand_Read {K} _.
Arguments range_order {K} _.

(** A [range] over a map visits every key once: the order is a duplicate-free
    enumeration of the keys. *)
Definition range_ok `{Countable K} (m : gset K) (order : list K) : Prop :=
  NoDup order /\ list_to_set order = m.

(** ** [sigcache.go]: the cache keyed by [[32]byte] arrays *)

Module SigCache.

(** [type sigKey [wire.HashSize]byte] *)
Abbreviation sigKey := (list byte).

(** The zero value of a [sigKey] ([var key sigKey]). *)
Definition zeroKey : sigKey := repeat x00 HashSize.

Record SigCache : Type := {
  validSigs : gset sigKey;
  maxEntries : Z;
  cacheNonce : bytes
}.

(** [NewSigCache]: [rnd] is the outcome of [rand.Read(cache.cacheNonce[:])];
    an error of the random source is returned to the caller ([None]). *)
Definition NewSigCache (maxEntries : Z) (rnd : option bytes)
  : option SigCache :=
  match rnd with
  | None => None
  | Some nonce =>
      Some {| validSigs := ∅;
              maxEntries := maxEntries;
              cacheNonce := copy (repeat x00 HashSize) nonce |}
  end.

(** The body of [for sigEntry := range s.validSigs] in [Add], on the keys
    still to visit; [foundEntry] is the variable of that name. *)
Fixpoint scan (randHashBytes : bytes) (order : list sigKey)
    (foundEntry : sigKey) : sigKey :=
  match order with
  | [] => foundEntry
  | sigEntry :: rest =>
      let zeroEntry := zeroKey in
      let foundEntry :=
        if decide (foundEntry = zeroEntry) then sigEntry else foundEntry in
      if bytes_Compare sigEntry randHashBytes >? 0
      then sigEntry
      else scan randHashBytes rest foundEntry
  end.

Definition nonzero (k : sigKey) : bool := bool_decide (k <> zeroKey).

(** The test [uint(len(s.validSigs)+1) > s.maxEntries] of [Add]. *)
Definition needs_eviction (s : SigCache) : bool :=
  uint (int_add (len (validSigs s)) 1) >? maxEntries s.

Section WithBtcec.
Context {btcec : Btcec}.

Definition newSigKey (nonce : bytes) (sigHash : bytes)
    (sig : Signature) (pubKey : PublicKey) : sigKey :=
  let hasher := sha256.New in
  let hasher := sha256.Write hasher nonce in
  let hasher := sha256.Write hasher sigHash in
  let hasher := sha256.Write hasher (Serialize sig) in
  let hasher := sha256.Write hasher (SerializeCompressed pubKey) in
  let key := zeroKey in
  copy key (sha256.Sum hasher []).

Definition Exists (s : SigCache) (sigHash : bytes)
    (sig : Signature) (pubKey : PublicKey) : bool :=
  let key := newSigKey (cacheNonce s) sigHash sig pubKey in
  bool_decide (key ∈ validSigs s).

(** [Add] returns nothing to its caller: its effect is the new state of
    the cache. [None] in [evicted] stands for the early [return]. *)
Definition Add (s : SigCache) (e : env sigKey) (sigHash : bytes)
    (sig : Signature) (pubKey : PublicKey) : SigCache :=
  if maxEntries s <=? 0 then s
  else
    let evicted : option (gset sigKey) :=
      if uint (int_add (len (validSigs s)) 1) >? maxEntries s then
        match rand_Read e with
        | None => None
        | Some randHashBytes =>
            let foundEntry := scan randHashBytes (range_order e) zeroKey in
            Some (validSigs s ∖ {[ foundEntry ]})
        end
      else Some (validSigs s) in
    match evicted with
    | None => s
    | Some m =>
        let key := newSigKey (cacheNonce s) sigHash sig pubKey in
        {| validSigs := m ∪ {[ key ]};
           maxEntries := maxEntries s;
           cacheNonce := cacheNonce s |}
    end.

(** A call of one of the two operations, and a run of calls in the order
    the lock serializes them; a run returns the last state and the results
    of its [Exists] calls. *)
Inductive op : Type :=
  | OpAdd (e : env sigKey) (sigHash : bytes)
          (sig : Signature) (pubKey : PublicKey)
  | OpExists (sigHash : bytes) (sig : Signature) (pubKey : PublicKey).

Fixpoint run (s : SigCache) (ops : list op) : SigCache * list bool :=
  match ops with
  | [] => (s, [])
  | OpAdd e h sig pk :: ops' => run (Add s e h sig pk) ops'
  | OpExists h sig pk :: ops' =>
      let '(s', outs) := run s ops' in (s', Exists s h sig pk :: outs)
  end.

(** The triples passed to [Add] in a run. *)
Fixpoint added (ops : list op) : list (bytes * Signature * PublicKey) :=
  match ops with
  | [] => []
  | OpAdd _ h sig pk :: ops' => (h, sig, pk) :: added ops'
  | OpExists _ _ _ :: ops' => added ops'
  end.

(** Every [Add] of the run that iterates does so in an order the map can
    offer at that point. *)
Fixpoint ops_ok (s : SigCache) (ops : list op) : Prop :=
  match ops with
  | [] => True
  | OpAdd e h sig pk :: ops' =>
      range_ok (validSigs s) (range_order e) /\ ops_ok (Add s e h sig pk) ops'
  | OpExists _ _ _ :: ops' => ops_ok s ops'
  end.

End WithBtcec.

End SigCache.

(** ** [sigcache_string.go]: the cache keyed by strings *)

Module StringSigCache.

Record StringSigCache : Type := {
  validSigs : gset string;
  maxEntries : Z;
  cacheNonce : bytes
}.

Definition NewStringSigCache (maxEntries : Z) (rnd : option bytes)
  : option StringSigCache :=
  match rnd with
  | None => None
  | Some nonce =>
      Some {| validSigs := ∅;
              maxEntries := maxEntries;
              cacheNonce := copy (repeat x00 HashSize) nonce |}
  end.

(** The body of [for sigEntry := range s.validSigs] in [Add]; the
    variable [foundEntry] starts as the empty string. *)
Fixpoint scan (randHashBytes : bytes) (order : list string)
    (foundEntry : string) : string :=
  match order with
  | [] => foundEntry
  | sigEntry :: rest =>
      let foundEntry :=
        if decide (foundEntry = EmptyString) then sigEntry else foundEntry in
      if bytes_Compare (list_byte_of_string sigEntry) randHashBytes >? 0
      then sigEntry
      else scan randHashBytes rest foundEntry
  end.

(** The test [uint(len(s.validSigs)+1) > s.maxEntries] of [Add]. *)
Definition needs_eviction (s : StringSigCache) : bool :=
  uint (int_add (len (validSigs s)) 1) >? maxEntries s.

Section WithBtcec.
Context {btcec : Btcec}.

Definition newSigKeyString (nonce : bytes) (sigHash : bytes)
    (sig : Signature) (pubKey : PublicKey) : string :=
  let hasher := sha256.New in
  let hasher := sha256.Write hasher nonce in
  let hasher := sha256.Write hasher sigHash in
  let hasher := sha256.Write hasher (Serialize sig) in
  let hasher := sha256.Write hasher (SerializeCompressed pubKey) in
  string_of_list_byte (sha256.Sum hasher []).

Definition Exists (s : StringSigCache) (sigHash : bytes)
    (sig : Signature) (pubKey : PublicKey) : bool :=
  bool_decide
    (newSigKeyString (cacheNonce s) sigHash sig pubKey ∈ validSigs s).

Definition Add (s : StringSigCache) (e : env string) (sigHash : bytes)
    (sig : Signature) (pubKey : PublicKey) : StringSigCache :=
  if maxEntries s <=? 0 then s
  else
    let evicted : option (gset string) :=
      if uint (int_add (len (validSigs s)) 1) >? maxEntries s then
        match rand_Read e with
        | None => None
        | Some randHashBytes =>
            let foundEntry :=
              scan randHashBytes (range_order e) EmptyString in
            Some (validSigs s ∖ {[ foundEntry ]})
        end
      else Some (validSigs s) in
    match evicted with
    | None => s
    | Some m =>
        {| validSigs :=
             m ∪ {[ newSigKeyString (cacheNonce s) sigHash sig pubKey ]};
           maxEntries := maxEntries s;
           cacheNonce := cacheNonce s |}
    end.

End WithBtcec.

End StringSigCache.

(** ** The eviction policy as documented

    "Try to find the first entry that is greater than the random hash. Use
    the first entry [...] as a fall back": the first key of the iteration
    that compares greater than the draw, else the first key visited. *)

Definition first_greater (randHashBytes : bytes) (order : list bytes)
  : option bytes :=
  List.find (fun k => bytes_Compare k randHashBytes >? 0) order.

Definition documented_victim (randHashBytes : bytes) (order : list bytes)
  : option bytes :=
  match first_greater randHashBytes order with
  | Some k => Some k
  | None => head order
  end.

(** The bytes the key derivation hashes, in the order they are written. *)
Definition key_preimage `{Btcec} (nonce sigHash : bytes) (sig : Signature)
    (pubKey : PublicKey) : bytes :=
  nonce ++ sigHash ++ Serialize sig ++ SerializeCompressed pubKey.

(** ** Calling both variants alike *)

(** The environment of the string variant that mirrors [e]: the same draw,
    the keys visited in the same order. *)
Definition string_env (e : env SigCache.sigKey) : env string :=
  {| rand_Read := rand_Read e;
     range_order := List.map string_of_list_byte (range_order e) |}.

(** Every resident key of a [SigCache] is an array of [HashSize] bytes. *)
Definition sigKeys_ok (s : SigCache.SigCache) : Prop :=
  forall k, k ∈ SigCache.validSigs s -> length k = HashSize.

(** The two caches hold the same keys, the same bound and the same nonce. *)
Definition same_cache (s : SigCache.SigCache)
    (s' : StringSigCache.StringSigCache) : Prop :=
  StringSigCache.validSigs s'
    = set_map string_of_list_byte (SigCache.validSigs s)
  /\ StringSigCache.maxEntries s' = SigCache.maxEntries s
  /\ StringSigCache.cacheNonce s' = SigCache.cacheNonce s.

(** The run of [StringSigCache] on the calls of a run of [SigCache]: the
    same triples, the same draws, the keys visited in the same order. *)
Fixpoint string_run `{Btcec} (s : StringSigCache.StringSigCache)
    (ops : list SigCache.op) : StringSigCache.StringSigCache * list bool :=
  match ops with
  | [] => (s, [])
  | SigCache.OpAdd e h sig pk :: ops' =>
      string_run (StringSigCache.Add s (string_env e) h sig pk) ops'
  | SigCache.OpExists h sig pk :: ops' =>
      let '(s', outs) := string_run s ops' in
      (s', StringSigCache.Exists s h sig pk :: outs)
  end.

(** ** Test data: signatures and keys given by their serializations *)

Definition wire_btcec : Btcec :=
  {| Signature := bytes;
     PublicKey := bytes;
     Serialize := fun b => b;
     SerializeCompressed := fun b => b |}.

#[global] Instance range_ok_dec `{Countable K} (m : gset K)
    (order : list K) : Decision (range_ok m order).
Proof. unfold range_ok. apply _. Defined.

#[global] Instance ops_ok_dec `{Btcec} (ops : list SigCache.op)
    (s : SigCache.SigCache) : Decision (SigCache.ops_ok s ops).
Proof.
  revert s. induction ops as [|[e h sig pk|h sig pk] ops IH]; intros s; simpl.
  - apply _.
  - apply and_dec; [apply _ | apply IH].
  - apply IH.
Defined.

Module TestData.

#[local] Existing Instance wire_btcec.

Definition nonce0 : bytes :=
  of_hex "000102030405060708090a0b0c0d0e0f101112131415161718191a1b1c1d1e1f".

(** Three triples: a digest, a DER signature, a compressed public key. *)
Definition hashA : bytes := repeat x0a 32.
Definition sigA : bytes := of_hex "3006020101020101".
Definition pubA : bytes := x02 :: repeat x11 32.

Definition hashB : bytes := repeat x0b 32.
Definition sigB : bytes := of_hex "3006020102020102".
Definition pubB : bytes := x03 :: repeat x22 32.

Definition hashC : bytes := repeat x0c 32.
Definition sigC : bytes := of_hex "3006020103020103".
Definition pubC : bytes := x02 :: repeat x33 32.

Definition keyA : bytes := SigCache.newSigKey nonce0 hashA sigA pubA.
Definition keyB : bytes := SigCache.newSigKey nonce0 hashB sigB pubB.
Definition keyC : bytes := SigCache.newSigKey nonce0 hashC sigC pubC.

Definition lowest : bytes := repeat x00 32.
Definition highest : bytes := repeat xff 32.

(** A call that does not draw, visiting the keys in the order [order]. *)
Definition no_draw (order : list bytes) : env bytes :=
  {| rand_Read := None; range_order := order |}.

Definition draw (r : bytes) (order : list bytes) : env bytes :=
  {| rand_Read := Some r; range_order := order |}.

(** A cache of two entries holding the triples A and B. *)
Definition cacheAB : SigCache.SigCache :=
  {| SigCache.validSigs := {[ keyA; keyB ]};
     SigCache.maxEntries := 2;
     SigCache.cacheNonce := nonce0 |}.

(** A full cache of two entries, one of them the zero key, and its
    counterpart keyed by strings. *)
Definition cacheZB : SigCache.SigCache :=
  {| SigCache.validSigs := {[ SigCache.zeroKey; keyB ]};
     SigCache.maxEntries := 2;
     SigCache.cacheNonce := nonce0 |}.


(** The cache built by [NewSigCache] with the nonce [nonce0]. *)
Definition fresh (maxEntries : Z) : SigCache.SigCache :=
  {| SigCache.validSigs := ∅;
     SigCache.maxEntries := maxEntries;
     SigCache.cacheNonce := nonce0 |}.

(** A cache of capacity two holding the triple A only. *)
Definition cacheA : SigCache.SigCache :=
  {| SigCache.validSigs := {[ keyA ]};
     SigCache.maxEntries := 2;
     SigCache.cacheNonce := nonce0 |}.

Definition stringCacheA : StringSigCache.StringSigCache :=
  {| StringSigCache.validSigs := {[ string_of_list_byte keyA ]};
     StringSigCache.maxEntries := 2;
     StringSigCache.cacheNonce := nonce0 |}.

Definition addA (e : env bytes) : SigCache.op :=
  SigCache.OpAdd e hashA sigA pubA.
Definition addB (e : env bytes) : SigCache.op :=
  SigCache.OpAdd e hashB sigB pubB.
Definition addC (e : env bytes) : SigCache.op :=
  SigCache.OpAdd e hashC sigC pubC.

End TestData.

(** Closed goals settled by evaluation. *)
Ltac by_decision := apply (bool_decide_unpack _); vm_compute; exact I.
Ltac by_evaluation := vm_compute; reflexivity.

(** ** Runs of [StringSigCache] *)

Module StringOps.

Section WithBtcec.
Context {btcec : Btcec}.

(** A call of one of the two operations of [StringSigCache], and a run of
    calls; a run returns the last state and the results of its [Exists]
    calls. *)
Inductive op : Type :=
  | OpAdd (e : env string) (sigHash : bytes)
          (sig : Signature) (pubKey : PublicKey)
  | OpExists (sigHash : bytes) (sig : Signature) (pubKey : PublicKey).

Fixpoint run (s : StringSigCache.StringSigCache) (ops : list op)
  : StringSigCache.StringSigCache * list bool :=
  match ops with
  | [] => (s, [])
  | OpAdd e h sig pk :: ops' => run (StringSigCache.Add s e h sig pk) ops'
  | OpExists h sig pk :: ops' =>
      let '(s', outs) := run s ops' in
      (s', StringSigCache.Exists s h sig pk :: outs)
  end.

(** The triples passed to [Add] in a run. *)
Fixpoint added (ops : list op) : list (bytes * Signature * PublicKey) :=
  match ops with
  | [] => []
  | OpAdd _ h sig pk :: ops' => (h, sig, pk) :: added ops'
  | OpExists _ _ _ :: ops' => added ops'
  end.

(** Every [Add] of the run iterates in an order the map can offer. *)
Fixpoint ops_ok (s : StringSigCache.StringSigCache) (ops : list op) : Prop :=
  match ops with
  | [] => True
  | OpAdd e h sig pk :: ops' =>
      range_ok (StringSigCache.validSigs s) (range_order e)
      /\ ops_ok (StringSigCache.Add s e h sig pk) ops'
  | OpExists _ _ _ :: ops' => ops_ok s ops'
  end.

End WithBtcec.

End StringOps.

#[global] Instance string_ops_ok_dec `{Btcec} (ops : list StringOps.op)
    (s : StringSigCache.StringSigCache) : Decision (StringOps.ops_ok s ops).
Proof.
  revert s. induction ops as [|[e h sig pk|h sig pk] ops IH]; intros s; simpl.
  - apply _.
  - apply and_dec; [apply _ | apply IH].
  - apply IH.
Defined.

(** Every resident key of a [StringSigCache] holds [HashSize] bytes. *)
Definition stringKeys_ok (s : StringSigCache.StringSigCache) : Prop :=
  forall k, k ∈ StringSigCache.validSigs s -> String.length k = HashSize.

Module StringTestData.
Import TestData.

#[local] Existing Instance wire_btcec.

Definition skeyA : string := string_of_list_byte keyA.
Definition skeyB : string := string_of_list_byte keyB.
Definition skeyC : string := string_of_list_byte keyC.

Definition sno_draw (order : list string) : env string :=
  {| rand_Read := None; range_order := order |}.

Definition sdraw (r : bytes) (order : list string) : env string :=
  {| rand_Read := Some r; range_order := order |}.

(** The cache built by [NewStringSigCache] with the nonce [nonce0]. *)
Definition sfresh (maxEntries : Z) : StringSigCache.StringSigCache :=
  {| StringSigCache.validSigs := ∅;
     StringSigCache.maxEntries := maxEntries;
     StringSigCache.cacheNonce := nonce0 |}.

(** A full cache of two entries holding the triples A and B. *)
Definition stringCacheAB : StringSigCache.StringSigCache :=
  {| StringSigCache.validSigs := {[ skeyA; skeyB ]};
     StringSigCache.maxEntries := 2;
     StringSigCache.cacheNonce := nonce0 |}.

Definition saddA (e : env string) : StringOps.op :=
  StringOps.OpAdd e hashA sigA pubA.
Definition saddB (e : env string) : StringOps.op :=
  StringOps.OpAdd e hashB sigB pubB.
Definition saddC (e : env string) : StringOps.op :=
  StringOps.OpAdd e hashC sigC pubC.

(** A full [SigCache] of one entry, the zero key. *)
Definition cacheZ : SigCache.SigCache :=
  {| SigCache.validSigs := {[ SigCache.zeroKey ]};
     SigCache.maxEntries := 1;
     SigCache.cacheNonce := nonce0 |}.

End StringTestData.

(** * Properties *)

(** ** SHA-256 and the key derivation *)

Example Sum256_empty :
  SHA256.Sum256 []
  = of_hex "e3b0c44298fc1c149afbf4c8996fb92427ae41e4649b934ca495991b7852b855".
Proof. vm_compute. reflexivity. Qed.

Example Sum256_abc :
  SHA256.Sum256 (list_byte_of_string "abc")
  = of_hex "ba7816bf8f01cfea414140de5dae2223b00361a396177a9cb410ff61f20015ad".
Proof. vm_compute. reflexivity. Qed.

Example Sum256_two_blocks :
  SHA256.Sum256
    (list_byte_of_string
       "abcdbcdecdefdefgefghfghighijhijkijkljklmklmnlmnomnopnopq")
  = of_hex "248d6a61d20638b8e5c026930c3e6039a33ce45964ff2167f6ecedd419db06c1".
Proof. vm_compute. reflexivity. Qed.

Lemma Sum256_length (msg : bytes) : length (SHA256.Sum256 msg) = HashSize.
Proof. reflexivity. Qed.

Lemma copy_same_length (dst src : bytes) :
  length src = length dst -> copy dst src = src.
Proof.
  intros Hlen. unfold copy.
  rewrite <- Hlen, firstn_all, skipn_all2 by lia.
  apply app_nil_r.
Qed.

Lemma copy_length (dst src : bytes) : length (copy dst src) = length dst.
Proof.
  unfold copy. rewrite length_app, length_firstn, length_skipn. lia.
Qed.

(** ** Machine integers *)

Lemma uint_int_add (x y : Z) : uint (int_add x y) = (x + y) mod 2 ^ 64.
Proof.
  unfold uint, int_add, wrap_int.
  rewrite Zminus_mod_idemp_l.
  replace (x + y + 2 ^ 63 - 2 ^ 63) with (x + y) by lia.
  reflexivity.
Qed.

Lemma uint_len_succ `{Countable K} (m : gset K) :
  len m < MaxUint -> uint (int_add (len m) 1) = len m + 1.
Proof.
  intros Hlt. rewrite uint_int_add.
  apply Z.mod_small. unfold len, MaxUint in *. lia.
Qed.

Lemma len_nonneg `{Countable K} (m : gset K) : 0 <= len m.
Proof. unfold len. lia. Qed.

(** ** Iteration orders *)

Lemma first_greater_none (r : bytes) (order : list bytes) :
  (forall k, k ∈ order -> bytes_Compare k r <= 0) ->
  first_greater r order = None.
Proof.
  unfold first_greater. induction order as [|x rest IH]; intros Hle; simpl.
  - reflexivity.
  - pose proof (Hle x ltac:(left)) as Hx.
    destruct (Z.gtb_spec (bytes_Compare x r) 0); [lia|].
    apply IH. intros k Hk. apply Hle. now right.
Qed.

Lemma range_ok_elem_of `{Countable K} (m : gset K) (order : list K) (k : K) :
  range_ok m order -> k ∈ order <-> k ∈ m.
Proof. intros [_ <-]. symmetry. apply elem_of_list_to_set. Qed.

Lemma range_ok_length `{Countable K} (m : gset K) (order : list K) :
  range_ok m order -> Z.of_nat (length order) = len m.
Proof.
  intros [Hnd <-]. unfold len. now rewrite size_list_to_set.
Qed.

Lemma range_ok_elements `{Countable K} (m : gset K) :
  range_ok m (elements m).
Proof.
  split; [apply NoDup_elements | apply list_to_set_elements_L].
Qed.

(** ** [SigCache] *)

Module SigCacheFacts.
Import SigCache.

(** *** The eviction scan *)

(** What the loop leaves in [foundEntry]: the first key greater than the
    draw if there is one; otherwise the variable keeps the first value
    different from the zero key it was given. *)
Lemma scan_found (r : bytes) (order : list sigKey) (f : sigKey) :
  scan r order f
  = match first_greater r order with
    | Some k => k
    | None =>
        if decide (f = zeroKey)
        then default zeroKey (List.find nonzero order)
        else f
    end.
Proof.
  revert f. induction order as [|x rest IH]; intros f; simpl.
  - unfold first_greater; simpl. destruct (decide (f = zeroKey)); congruence.
  - unfold first_greater in *; simpl.
    destruct (bytes_Compare x r >? 0); [reflexivity|].
    rewrite IH. destruct (List.find _ rest); [reflexivity|].
    unfold nonzero at 2.
    destruct (decide (f = zeroKey)) as [Hf|Hf].
    + destruct (decide (x = zeroKey)) as [Hx|Hx].
      * rewrite bool_decide_eq_false_2 by (intros Hn; now apply Hn).
        reflexivity.
      * rewrite bool_decide_eq_true_2 by assumption. reflexivity.
    + destruct (decide (f = zeroKey)); [contradiction | reflexivity].
Qed.

Lemma scan_keeps_or_visits (r : bytes) (order : list sigKey) (f : sigKey) :
  scan r order f = f \/ scan r order f ∈ order.
Proof.
  revert f. induction order as [|x rest IH]; intros f; simpl.
  - now left.
  - destruct (bytes_Compare x r >? 0).
    + right. left.
    + destruct (IH (if decide (f = zeroKey) then x else f)) as [Heq|Hin].
      * rewrite Heq. destruct (decide (f = zeroKey)); [right; left | now left].
      * right. now right.
Qed.

(** On a map that is not empty the loop always picks a resident key. *)
Lemma scan_visits (r : bytes) (order : list sigKey) :
  order <> [] -> scan r order zeroKey ∈ order.
Proof.
  destruct order as [|x rest]; [congruence|]. intros _. simpl.
  destruct (bytes_Compare x r >? 0); [left|].
  destruct (scan_keeps_or_visits r rest x) as [-> | Hin]; [left | now right].
Qed.

(** When the first key visited is not the zero key, the loop picks the
    documented victim. *)
Lemma scan_documented (r : bytes) (x : sigKey) (rest : list sigKey) :
  x <> zeroKey ->
  Some (scan r (x :: rest) zeroKey) = documented_victim r (x :: rest).
Proof.
  intros Hx. rewrite scan_found. unfold documented_victim.
  destruct (first_greater r (x :: rest)); [reflexivity|].
  rewrite decide_True by reflexivity. simpl.
  unfold nonzero. now rewrite bool_decide_eq_true_2.
Qed.

(** *** The four ways through [Add] *)

Section AddCases.
Context {btcec : Btcec}.
Implicit Types (s : SigCache) (e : env sigKey).

Lemma Add_disabled s e h sig pk :
  maxEntries s <= 0 -> Add s e h sig pk = s.
Proof.
  intros Hmax. unfold Add.
  now rewrite (proj2 (Z.leb_le _ _) Hmax).
Qed.

Lemma Add_no_eviction s e h sig pk :
  0 < maxEntries s -> needs_eviction s = false ->
  Add s e h sig pk
  = {| validSigs := validSigs s ∪ {[ newSigKey (cacheNonce s) h sig pk ]};
       maxEntries := maxEntries s;
       cacheNonce := cacheNonce s |}.
Proof.
  intros Hmax Hne. unfold Add, needs_eviction in *.
  rewrite (proj2 (Z.leb_gt _ _) Hmax), Hne. reflexivity.
Qed.

Lemma Add_rand_error s e h sig pk :
  needs_eviction s = true -> rand_Read e = None ->
  Add s e h sig pk = s.
Proof.
  intros Hne Hr. unfold Add, needs_eviction in *.
  rewrite Hne, Hr. now destruct (maxEntries s <=? 0).
Qed.

Lemma Add_eviction s e h sig pk r :
  0 < maxEntries s -> needs_eviction s = true -> rand_Read e = Some r ->
  Add s e h sig pk
  = {| validSigs :=
         validSigs s ∖ {[ scan r (range_order e) zeroKey ]}
         ∪ {[ newSigKey (cacheNonce s) h sig pk ]};
       maxEntries := maxEntries s;
       cacheNonce := cacheNonce s |}.
Proof.
  intros Hmax Hne Hr. unfold Add, needs_eviction in *.
  rewrite (proj2 (Z.leb_gt _ _) Hmax), Hne, Hr. reflexivity.
Qed.

(** A full cache is one on which [Add] needs an eviction. *)
Lemma full_needs_eviction s :
  len (validSigs s) = maxEntries s -> maxEntries s < MaxUint ->
  needs_eviction s = true.
Proof.
  intros Hfull Hlt. unfold needs_eviction.
  rewrite uint_len_succ by lia. apply Z.gtb_gt. lia.
Qed.

Lemma Add_maxEntries s e h sig pk :
  maxEntries (Add s e h sig pk) = maxEntries s.
Proof.
  unfold Add. destruct (maxEntries s <=? 0); [reflexivity|].
  destruct (_ >? _); [destruct (rand_Read e)|]; reflexivity.
Qed.

Lemma Add_cacheNonce s e h sig pk :
  cacheNonce (Add s e h sig pk) = cacheNonce s.
Proof.
  unfold Add. destruct (maxEntries s <=? 0); [reflexivity|].
  destruct (_ >? _); [destruct (rand_Read e)|]; reflexivity.
Qed.

End AddCases.

(** *** Key derivation *)

Section Claims.
Context {btcec : Btcec}.
Implicit Types (s : SigCache) (e : env sigKey).

Lemma newSigKey_Sum256 (nonce h : bytes) (sig : Signature) (pk : PublicKey) :
  newSigKey nonce h sig pk
  = SHA256.Sum256 (nonce ++ h ++ Serialize sig ++ SerializeCompressed pk).
Proof.
  unfold newSigKey, sha256.Sum, sha256.Write, sha256.New; simpl.
  rewrite copy_same_length by reflexivity.
  now rewrite <- !app_assoc.
Qed.

Lemma sigKey_length (nonce h : bytes) (sig : Signature) (pk : PublicKey) :
  length (newSigKey nonce h sig pk) = HashSize.
Proof. unfold newSigKey. now rewrite copy_length. Qed.

(** [Add] brings in no key but the one derived from its arguments. *)
Lemma Add_resident s e h sig pk (k : sigKey) :
  k ∈ validSigs (Add s e h sig pk) ->
  k ∈ validSigs s \/ k = newSigKey (cacheNonce s) h sig pk.
Proof.
  unfold Add. destruct (maxEntries s <=? 0); [now left|].
  destruct (_ >? _); [destruct (rand_Read e)|]; simpl; set_solver.
Qed.

Lemma run_maxEntries s (ops : list op) :
  maxEntries (fst (run s ops)) = maxEntries s.
Proof.
  revert s. induction ops as [|[e h sig pk|h sig pk] ops IH]; intros s; simpl.
  - reflexivity.
  - rewrite IH. apply Add_maxEntries.
  - specialize (IH s). destruct (run s ops). exact IH.
Qed.

Lemma run_cacheNonce s (ops : list op) :
  cacheNonce (fst (run s ops)) = cacheNonce s.
Proof.
  revert s. induction ops as [|[e h sig pk|h sig pk] ops IH]; intros s; simpl.
  - reflexivity.
  - rewrite IH. apply Add_cacheNonce.
  - specialize (IH s). destruct (run s ops). exact IH.
Qed.

(** *** Capacity *)

(** One [Add] keeps the count within the bound, as long as [len + 1] does
    not wrap. *)
Lemma Add_within_bound s e h sig pk :
  range_ok (validSigs s) (range_order e) ->
  len (validSigs s) < MaxUint ->
  len (validSigs s) <= maxEntries s ->
  len (validSigs (Add s e h sig pk)) <= maxEntries s
  /\ len (validSigs (Add s e h sig pk)) <= len (validSigs s) + 1.
Proof.
  intros Hok Hfit Hinv.
  pose proof (len_nonneg (validSigs s)) as Hnn.
  assert (Hins : forall (m : gset sigKey) k, len (m ∪ {[ k ]}) <= len m + 1).
  { intros m k. unfold len.
    pose proof (size_union_alt m {[ k ]}) as Hu.
    pose proof (subseteq_size ({[ k ]} ∖ m) {[ k ]}) as Hs.
    rewrite size_singleton in Hs. specialize (Hs ltac:(set_solver)). lia. }
  destruct (Z.le_gt_cases (maxEntries s) 0) as [Hmax|Hmax].
  { rewrite Add_disabled by assumption. lia. }
  destruct (needs_eviction s) eqn:Hne.
  - destruct (rand_Read e) as [r|] eqn:Hr.
    + rewrite (Add_eviction _ _ _ _ _ r) by assumption. simpl.
      assert (Hin : scan r (range_order e) zeroKey ∈ validSigs s).
      { apply (range_ok_elem_of _ (range_order e)); [assumption|].
        apply scan_visits. intros Hnil.
        apply range_ok_length in Hok. rewrite Hnil in Hok. simpl in Hok.
        unfold needs_eviction in Hne. rewrite uint_len_succ in Hne by assumption.
        lia. }
      set (v := scan r (range_order e) zeroKey) in *.
      assert (Hdel : len (validSigs s ∖ {[ v ]}) = len (validSigs s) - 1).
      { unfold len. rewrite size_difference by set_solver.
        rewrite size_singleton.
        assert (size (validSigs s) <> 0%nat).
        { intros Hz. apply size_empty_inv in Hz. set_solver. }
        lia. }
      pose proof (Hins (validSigs s ∖ {[ v ]})
                       (newSigKey (cacheNonce s) h sig pk)). lia.
    + rewrite Add_rand_error by assumption. lia.
  - rewrite Add_no_eviction by assumption. simpl.
    unfold needs_eviction in Hne. rewrite uint_len_succ in Hne by assumption.
    pose proof (Hins (validSigs s) (newSigKey (cacheNonce s) h sig pk)). lia.
Qed.

Lemma run_within_bound (ops : list op) s :
  ops_ok s ops ->
  maxEntries s < MaxUint
  \/ len (validSigs s) + Z.of_nat (length ops) <= MaxUint ->
  len (validSigs s) <= maxEntries s ->
  len (validSigs (fst (run s ops))) <= maxEntries s.
Proof.
  revert s. induction ops as [|[e h sig pk|h sig pk] ops IH]; intros s; simpl.
  - intros _ _ Hinv. exact Hinv.
  - intros [Hok Hrest] Hfit Hinv.
    assert (Hlt : len (validSigs s) < MaxUint) by lia.
    destruct (Add_within_bound s e h sig pk Hok Hlt Hinv) as [Hb Hg].
    rewrite <- (Add_maxEntries s e h sig pk).
    apply IH; [assumption | | ]; rewrite Add_maxEntries; [lia | assumption].
  - intros Hok Hfit Hinv. specialize (IH s Hok).
    destruct (run s ops) as [s' outs]. simpl in *. apply IH; [lia | assumption].
Qed.

(** C1. After any sequence of calls on a cache built by [NewSigCache], the
    number of resident entries does not exceed [maxEntries]. The bound
    [maxEntries] is any value of the type [uint]; the side condition says
    that [len(s.validSigs)+1] is computed without wrap-around, which holds
    when [maxEntries] is not the largest [uint] or the run has at most that
    many calls. *)
Theorem capacity_bound (maxEntries : Z) (rnd : option bytes) s0
    (ops : list op) :
  0 <= maxEntries <= MaxUint ->
  maxEntries < MaxUint \/ Z.of_nat (length ops) <= MaxUint ->
  NewSigCache maxEntries rnd = Some s0 ->
  ops_ok s0 ops ->
  len (validSigs (fst (run s0 ops))) <= maxEntries.
Proof.
  intros Hrange Hfit Hnew Hok.
  destruct rnd as [nonce|]; [|discriminate]. injection Hnew as <-.
  apply (run_within_bound ops _ Hok); simpl.
  - unfold len. rewrite size_empty. lia.
  - unfold len. rewrite size_empty. lia.
Qed.

(** *** Insertion and lookup *)

(** C2. On a cache with [maxEntries >= 1], an [Add] that goes through (no
    eviction is needed, or the random draw succeeds) makes the [Exists]
    that follows it return true for the same triple. *)
Theorem Add_then_Exists s e h sig pk :
  1 <= maxEntries s ->
  needs_eviction s = false \/ rand_Read e <> None ->
  Exists (Add s e h sig pk) h sig pk = true.
Proof.
  intros Hmax Hgo. unfold Exists. rewrite Add_cacheNonce.
  apply bool_decide_eq_true_2.
  destruct (needs_eviction s) eqn:Hne.
  - destruct Hgo as [Hgo|Hgo]; [discriminate|].
    destruct (rand_Read e) as [r|] eqn:Hr; [|congruence].
    rewrite (Add_eviction _ _ _ _ _ r) by (assumption || lia).
    simpl. set_solver.
  - rewrite Add_no_eviction by (assumption || lia). simpl. set_solver.
Qed.

(** C5. When an eviction is needed and the random source fails, [Add]
    returns with the cache as it was: nothing is inserted, nothing is
    evicted; [Add] has no result through which an error could reach the
    caller. *)
Theorem Add_rand_error_unchanged s e h sig pk :
  1 <= maxEntries s ->
  needs_eviction s = true ->
  rand_Read e = None ->
  Add s e h sig pk = s.
Proof. intros _ Hne Hr. now apply Add_rand_error. Qed.

(** A cache whose bound is zero is never changed by a run. *)
Lemma run_disabled s (ops : list op) :
  maxEntries s <= 0 -> fst (run s ops) = s.
Proof.
  intros Hmax. induction ops as [|[e h sig pk|h sig pk] ops IH]; simpl.
  - reflexivity.
  - now rewrite Add_disabled.
  - destruct (run s ops). exact IH.
Qed.

Lemma run_outputs_empty s (ops : list op) :
  maxEntries s <= 0 -> validSigs s = ∅ ->
  Forall (fun b => b = false) (snd (run s ops)).
Proof.
  intros Hmax Hempty. induction ops as [|[e h sig pk|h sig pk] ops IH]; simpl.
  - constructor.
  - now rewrite Add_disabled.
  - destruct (run s ops) as [s' outs]. simpl in *. constructor; [|exact IH].
    unfold Exists. rewrite Hempty. apply bool_decide_eq_false_2. set_solver.
Qed.

(** C6. With [maxEntries = 0] every [Add] leaves the cache as it is, and on
    a cache built with that bound every [Exists], during or after any run
    of calls, returns false. *)
Theorem disabled_cache_inert (rnd : option bytes) s0 s e (ops : list op)
    h sig pk :
  NewSigCache 0 rnd = Some s0 ->
  maxEntries s = 0 ->
  Add s e h sig pk = s
  /\ fst (run s0 ops) = s0
  /\ Forall (fun b => b = false) (snd (run s0 ops))
  /\ Exists (fst (run s0 ops)) h sig pk = false.
Proof.
  intros Hnew Hmax. destruct rnd as [nonce|]; [|discriminate].
  injection Hnew as <-. split; [|split; [|split]].
  - apply Add_disabled. lia.
  - now apply run_disabled.
  - now apply run_outputs_empty.
  - rewrite run_disabled by reflexivity.
    unfold Exists; simpl. apply bool_decide_eq_false_2. set_solver.
Qed.

(** *** No false positives *)

(** A key resident after a run was resident before it or was derived from
    a triple passed to [Add] during the run. *)
Lemma run_resident (ops : list op) s (k : sigKey) :
  k ∈ validSigs (fst (run s ops)) ->
  k ∈ validSigs s
  \/ exists h sig pk,
       In (h, sig, pk) (added ops)
       /\ k = newSigKey (cacheNonce s) h sig pk.
Proof.
  revert s. induction ops as [|[e h sig pk|h sig pk] ops IH]; intros s; simpl.
  - now left.
  - intros Hk. destruct (IH _ Hk) as [Hin|(h' & sig' & pk' & Hin & ->)].
    + destruct (Add_resident _ _ _ _ _ _ Hin) as [Hs| ->]; [now left|].
      right. exists h, sig, pk. split; [now left | reflexivity].
    + right. exists h', sig', pk'. rewrite Add_cacheNonce.
      split; [now right | reflexivity].
  - specialize (IH s). destruct (run s ops). exact IH.
Qed.


(** *** The eviction policy *)

(** On a full cache, when the draw succeeds and the first key visited is
    not the zero key, [Add] evicts the documented victim and inserts the
    new key. *)
Lemma Add_evicts_documented s e h sig pk (r : bytes) (x : sigKey)
    (rest : list sigKey) :
  1 <= maxEntries s ->
  needs_eviction s = true ->
  rand_Read e = Some r ->
  range_order e = x :: rest ->
  x <> zeroKey ->
  exists v,
    documented_victim r (range_order e) = Some v
    /\ validSigs (Add s e h sig pk)
       = validSigs s ∖ {[ v ]} ∪ {[ newSigKey (cacheNonce s) h sig pk ]}.
Proof.
  intros Hmax Hne Hr Horder Hx.
  exists (scan r (range_order e) zeroKey). split.
  - rewrite Horder. symmetry. now apply scan_documented.
  - now rewrite (Add_eviction _ _ _ _ _ r) by (assumption || lia).
Qed.

(** *** The zero key in the eviction scan *)

(** C10. The draw succeeds, no resident key is greater than the draw, the
    first key visited is the zero key and another key is resident: then
    the key evicted is the second one visited, which is not the zero key,
    and the zero key stays resident unless it is the key being added. *)
Theorem zero_key_first_not_evicted s e h sig pk (r : bytes)
    (rest : list sigKey) :
  1 <= maxEntries s ->
  needs_eviction s = true ->
  rand_Read e = Some r ->
  range_ok (validSigs s) (range_order e) ->
  (forall k, k ∈ validSigs s -> bytes_Compare k r <= 0) ->
  range_order e = zeroKey :: rest ->
  rest <> [] ->
  exists k2 rest',
    rest = k2 :: rest'
    /\ k2 <> zeroKey
    /\ scan r (range_order e) zeroKey = k2
    /\ validSigs (Add s e h sig pk)
       = validSigs s ∖ {[ k2 ]} ∪ {[ newSigKey (cacheNonce s) h sig pk ]}
    /\ zeroKey ∈ validSigs (Add s e h sig pk).
Proof.
  intros Hmax Hne Hr Hok Hle Horder Hrest.
  destruct rest as [|k2 rest']; [congruence|]. exists k2, rest'.
  assert (Hk2 : k2 <> zeroKey).
  { destruct Hok as [Hnd _]. rewrite Horder in Hnd.
    apply NoDup_cons in Hnd as [Hnotin _]. intros ->. apply Hnotin. left. }
  assert (Hnone : first_greater r (range_order e) = None).
  { apply first_greater_none. intros k Hin. apply Hle.
    now apply (range_ok_elem_of _ (range_order e)). }
  assert (Hscan : scan r (range_order e) zeroKey = k2).
  { rewrite scan_found, Hnone, decide_True by reflexivity.
    rewrite Horder. simpl. unfold nonzero.
    now rewrite bool_decide_eq_true_2. }
  assert (Hadd : validSigs (Add s e h sig pk)
    = validSigs s ∖ {[ k2 ]} ∪ {[ newSigKey (cacheNonce s) h sig pk ]}).
  { rewrite (Add_eviction _ _ _ _ _ r) by (assumption || lia).
    simpl. now rewrite Hscan. }
  repeat split; try assumption.
  rewrite Hadd.
  assert (zeroKey ∈ validSigs s).
  { apply (range_ok_elem_of _ (range_order e)); [assumption|].
    rewrite Horder. left. }
  set_solver.
Qed.

End Claims.

End SigCacheFacts.

(** ** [StringSigCache] *)

Module StringSigCacheFacts.
Import StringSigCache.

#[global] Instance string_of_list_byte_inj :
  Inj (=) (=) string_of_list_byte.
Proof.
  intros a b Heq.
  rewrite <- (list_byte_of_string_of_list_byte a), Heq.
  apply list_byte_of_string_of_list_byte.
Qed.

Lemma string_of_list_byte_nonempty (k : bytes) :
  k <> [] -> string_of_list_byte k <> EmptyString.
Proof. destruct k; [congruence | discriminate]. Qed.

(** *** The eviction scan *)

(** Once [foundEntry] is not the empty string, only a key greater than the
    draw replaces it. *)
Lemma scan_set (r : bytes) (order : list string) (f : string) :
  f <> EmptyString ->
  scan r order f
  = default f
      (List.find
         (fun k => bytes_Compare (list_byte_of_string k) r >? 0) order).
Proof.
  intros Hf. induction order as [|x rest IH]; simpl; [reflexivity|].
  rewrite decide_False by assumption.
  destruct (_ >? 0); [reflexivity | exact IH].
Qed.

(** On keys that are not empty strings, the loop picks the documented
    victim: the first key greater than the draw, else the first key. *)
Lemma string_scan_documented (r : bytes) (order : list string) :
  order <> [] ->
  Forall (fun k => k <> EmptyString) order ->
  Some (list_byte_of_string (scan r order EmptyString))
  = documented_victim r (List.map list_byte_of_string order).
Proof.
  destruct order as [|x rest]; [congruence|]. intros _ Hall.
  apply Forall_cons in Hall as [Hx _].
  unfold documented_victim, first_greater. simpl.
  destruct (_ >? 0); [reflexivity|].
  rewrite scan_set by assumption.
  induction rest as [|y rest IH]; simpl; [reflexivity|].
  destruct (_ >? 0); [reflexivity | exact IH].
Qed.

(** *** The ways through [Add] *)

Section AddCases.
Context {btcec : Btcec}.
Implicit Types (s : StringSigCache) (e : env string).

Lemma newSigKeyString_Sum256 (nonce h : bytes) (sig : Signature)
    (pk : PublicKey) :
  newSigKeyString nonce h sig pk
  = string_of_list_byte
      (SHA256.Sum256
         (nonce ++ h ++ Serialize sig ++ SerializeCompressed pk)).
Proof.
  unfold newSigKeyString, sha256.Sum, sha256.Write, sha256.New; simpl.
  now rewrite <- !app_assoc.
Qed.

Lemma string_Add_disabled s e h sig pk :
  maxEntries s <= 0 -> Add s e h sig pk = s.
Proof.
  intros Hmax. unfold Add.
  now rewrite (proj2 (Z.leb_le _ _) Hmax).
Qed.

Lemma string_Add_no_eviction s e h sig pk :
  0 < maxEntries s ->
  needs_eviction s = false ->
  Add s e h sig pk
  = {| validSigs :=
         validSigs s ∪ {[ newSigKeyString (cacheNonce s) h sig pk ]};
       maxEntries := maxEntries s;
       cacheNonce := cacheNonce s |}.
Proof.
  intros Hmax Hne. unfold Add, needs_eviction in *.
  rewrite (proj2 (Z.leb_gt _ _) Hmax), Hne. reflexivity.
Qed.

Lemma string_Add_rand_error s e h sig pk :
  needs_eviction s = true ->
  rand_Read e = None ->
  Add s e h sig pk = s.
Proof.
  intros Hne Hr. unfold Add, needs_eviction in *.
  rewrite Hne, Hr. now destruct (maxEntries s <=? 0).
Qed.

Lemma string_Add_eviction s e h sig pk r :
  0 < maxEntries s ->
  needs_eviction s = true ->
  rand_Read e = Some r ->
  Add s e h sig pk
  = {| validSigs :=
         validSigs s ∖ {[ scan r (range_order e) EmptyString ]}
         ∪ {[ newSigKeyString (cacheNonce s) h sig pk ]};
       maxEntries := maxEntries s;
       cacheNonce := cacheNonce s |}.
Proof.
  intros Hmax Hne Hr. unfold Add, needs_eviction in *.
  rewrite (proj2 (Z.leb_gt _ _) Hmax), Hne, Hr. reflexivity.
Qed.

(** On a full cache whose keys are not empty strings (no key is: a key
    holds the 32 bytes of a hash), when the draw succeeds, [Add] evicts the
    documented victim and inserts the new key. *)
Lemma string_Add_evicts_documented s e h sig pk (r : bytes) :
  1 <= maxEntries s ->
  needs_eviction s = true ->
  rand_Read e = Some r ->
  range_order e <> [] ->
  Forall (fun k => k <> EmptyString) (range_order e) ->
  exists v,
    documented_victim r (List.map list_byte_of_string (range_order e))
    = Some (list_byte_of_string v)
    /\ validSigs (Add s e h sig pk)
       = validSigs s ∖ {[ v ]}
         ∪ {[ newSigKeyString (cacheNonce s) h sig pk ]}.
Proof.
  intros Hmax Hne Hr Horder Hall.
  exists (scan r (range_order e) EmptyString). split.
  - symmetry. now apply string_scan_documented.
  - now rewrite (string_Add_eviction _ _ _ _ _ r) by (assumption || lia).
Qed.

Lemma string_Add_resident s e h sig pk (k : string) :
  k ∈ validSigs (Add s e h sig pk) ->
  k ∈ validSigs s \/ k = newSigKeyString (cacheNonce s) h sig pk.
Proof.
  unfold Add. destruct (maxEntries s <=? 0); [now left|].
  destruct (_ >? _); [destruct (rand_Read e)|]; simpl; set_solver.
Qed.

End AddCases.

End StringSigCacheFacts.

(** ** The two variants side by side *)

Module Variants.

Section Simulation.
Context {btcec : Btcec}.

Lemma newSigKeyString_newSigKey (nonce h : bytes) (sig : Signature)
    (pk : PublicKey) :
  StringSigCache.newSigKeyString nonce h sig pk
  = string_of_list_byte (SigCache.newSigKey nonce h sig pk).
Proof.
  now rewrite StringSigCacheFacts.newSigKeyString_Sum256,
    SigCacheFacts.newSigKey_Sum256.
Qed.

Lemma len_set_map_string (X : gset bytes) :
  len (set_map string_of_list_byte X : gset string) = len X.
Proof.
  unfold len, set_map. f_equal.
  rewrite size_list_to_set.
  - now rewrite length_fmap.
  - apply NoDup_fmap_2; [apply _ | apply NoDup_elements].
Qed.

(** Once [foundEntry] holds a key that is neither the zero key nor empty,
    the two loops go on alike. *)
Lemma scan_string_set (r : bytes) (order : list bytes) (f : bytes) :
  f <> SigCache.zeroKey -> f <> [] ->
  StringSigCache.scan r (List.map string_of_list_byte order)
    (string_of_list_byte f)
  = string_of_list_byte (SigCache.scan r order f).
Proof.
  intros Hz He. induction order as [|x rest IH]; simpl; [reflexivity|].
  rewrite list_byte_of_string_of_list_byte.
  destruct (_ >? 0); [reflexivity|].
  rewrite decide_False
    by now apply StringSigCacheFacts.string_of_list_byte_nonempty.
  rewrite decide_False by assumption. exact IH.
Qed.

(** The two loops pick the same key when the first key visited is neither
    the zero key nor empty. *)
Lemma scan_string_env (r : bytes) (x : bytes) (rest : list bytes) :
  x <> SigCache.zeroKey -> x <> [] ->
  StringSigCache.scan r (List.map string_of_list_byte (x :: rest))
    EmptyString
  = string_of_list_byte (SigCache.scan r (x :: rest) SigCache.zeroKey).
Proof.
  intros Hz He. simpl.
  rewrite list_byte_of_string_of_list_byte.
  destruct (_ >? 0); [reflexivity|].
  now apply scan_string_set.
Qed.

Lemma same_cache_Exists s s' (h : bytes) (sig : Signature) (pk : PublicKey) :
  same_cache s s' ->
  StringSigCache.Exists s' h sig pk = SigCache.Exists s h sig pk.
Proof.
  intros (Hv & _ & Hn). unfold StringSigCache.Exists, SigCache.Exists.
  rewrite Hv, Hn, newSigKeyString_newSigKey.
  apply bool_decide_ext. rewrite elem_of_map. split.
  - intros (k & Heq & Hk).
    apply (inj string_of_list_byte) in Heq. now subst.
  - intros Hk. eexists. split; [reflexivity | exact Hk].
Qed.

(** As long as the zero key is not resident, an [Add] keeps the two
    variants in step. *)
Lemma same_cache_Add s s' (e : env bytes) (h : bytes) (sig : Signature)
    (pk : PublicKey) :
  same_cache s s' ->
  range_ok (SigCache.validSigs s) (range_order e) ->
  sigKeys_ok s ->
  SigCache.zeroKey ∉ SigCache.validSigs s ->
  same_cache (SigCache.Add s e h sig pk)
             (StringSigCache.Add s' (string_env e) h sig pk).
Proof.
  intros (Hv & Hm & Hn) Hok Hwf Hzero.
  unfold SigCache.Add, StringSigCache.Add.
  rewrite Hm, Hn, Hv, len_set_map_string, newSigKeyString_newSigKey.
  destruct (SigCache.maxEntries s <=? 0); [now repeat split|].
  destruct (_ >? _).
  - simpl. destruct (rand_Read e) as [r|]; [|now repeat split].
    split; [simpl | now split].
    rewrite set_map_union_L, !set_map_singleton_L.
    rewrite (set_map_difference_L string_of_list_byte), set_map_singleton_L.
    destruct (range_order e) as [|x rest] eqn:Horder.
    + destruct Hok as [_ Hset]. simpl in Hset. rewrite <- Hset.
      rewrite set_map_empty. set_solver.
    + assert (Hx : x ∈ SigCache.validSigs s).
      { apply (range_ok_elem_of _ (x :: rest)); [assumption | left]. }
      rewrite scan_string_env; [reflexivity | set_solver |].
      intros ->. specialize (Hwf _ Hx). discriminate.
  - split; [simpl | now split].
    now rewrite set_map_union_L, set_map_singleton_L.
Qed.

End Simulation.

Section BothVariants.
Context {btcec : Btcec}.

(** C7. The key of a triple is the SHA-256 hash of
    nonce || digest || serialized signature || compressed public key, in
    both variants (the string variant holds the same 32 bytes as a string);
    the key is a function of these four values. [Exists] looks up the key
    derived with the nonce of the cache, and [Add] either leaves the cache
    as it is or inserts that key, and brings in no other key. *)
Theorem key_derivation (nonce h : bytes) (sig : Signature) (pk : PublicKey)
    (s : SigCache.SigCache) (e : env bytes)
    (s' : StringSigCache.StringSigCache) (e' : env string) :
  let key n := SHA256.Sum256 (key_preimage n h sig pk) in
  SigCache.newSigKey nonce h sig pk = key nonce
  /\ StringSigCache.newSigKeyString nonce h sig pk
     = string_of_list_byte (key nonce)
  /\ length (key nonce) = HashSize
  /\ SigCache.Exists s h sig pk
     = bool_decide (key (SigCache.cacheNonce s) ∈ SigCache.validSigs s)
  /\ SigCache.validSigs (SigCache.Add s e h sig pk)
     ⊆ SigCache.validSigs s ∪ {[ key (SigCache.cacheNonce s) ]}
  /\ (SigCache.Add s e h sig pk = s
      \/ key (SigCache.cacheNonce s)
         ∈ SigCache.validSigs (SigCache.Add s e h sig pk))
  /\ StringSigCache.Exists s' h sig pk
     = bool_decide
         (string_of_list_byte (key (StringSigCache.cacheNonce s'))
          ∈ StringSigCache.validSigs s')
  /\ StringSigCache.validSigs (StringSigCache.Add s' e' h sig pk)
     ⊆ StringSigCache.validSigs s'
       ∪ {[ string_of_list_byte (key (StringSigCache.cacheNonce s')) ]}
  /\ (StringSigCache.Add s' e' h sig pk = s'
      \/ string_of_list_byte (key (StringSigCache.cacheNonce s'))
         ∈ StringSigCache.validSigs (StringSigCache.Add s' e' h sig pk)).
Proof.
  intros key.
  assert (Hk : forall n, SigCache.newSigKey n h sig pk = key n)
    by (intros n; apply SigCacheFacts.newSigKey_Sum256).
  assert (Hks : forall n,
    StringSigCache.newSigKeyString n h sig pk = string_of_list_byte (key n))
    by (intros n; apply StringSigCacheFacts.newSigKeyString_Sum256).
  split; [apply Hk|]. split; [apply Hks|]. split; [reflexivity|].
  clearbody key.
  split; [unfold SigCache.Exists; now rewrite Hk|].
  split; [|split; [|split; [|split]]].
  - intros k Hin. apply SigCacheFacts.Add_resident in Hin.
    rewrite Hk in Hin. set_solver.
  - rewrite <- Hk. unfold SigCache.Add.
    destruct (_ <=? 0); [now left|].
    destruct (_ >? _); [destruct (rand_Read e)|];
      simpl; (now left) || (right; set_solver).
  - unfold StringSigCache.Exists. now rewrite Hks.
  - intros k Hin. apply StringSigCacheFacts.string_Add_resident in Hin.
    rewrite Hks in Hin. set_solver.
  - rewrite <- Hks. unfold StringSigCache.Add.
    destruct (_ <=? 0); [now left|].
    destruct (_ >? _); [destruct (rand_Read e')|];
      simpl; (now left) || (right; set_solver).
Qed.

(** Adding a triple whose key is resident leaves a [SigCache] as it is
    when no eviction is needed, when the cache is disabled, or when the
    random draw fails. *)
Lemma SigCache_Add_present s e (h : bytes) (sig : Signature)
    (pk : PublicKey) :
  SigCache.newSigKey (SigCache.cacheNonce s) h sig pk
    ∈ SigCache.validSigs s ->
  SigCache.needs_eviction s = false
  \/ SigCache.maxEntries s <= 0 \/ rand_Read e = None ->
  SigCache.Add s e h sig pk = s.
Proof.
  intros Hin Hcase.
  destruct (Z.le_gt_cases (SigCache.maxEntries s) 0) as [Hmax|Hmax].
  { now apply SigCacheFacts.Add_disabled. }
  destruct (SigCache.needs_eviction s) eqn:Hne.
  - destruct Hcase as [Hc|[Hc|Hc]]; [discriminate | lia |].
    now apply SigCacheFacts.Add_rand_error.
  - rewrite SigCacheFacts.Add_no_eviction by assumption.
    destruct s as [m mx n]; simpl in *. f_equal. set_solver.
Qed.

Lemma StringSigCache_Add_present s e (h : bytes) (sig : Signature)
    (pk : PublicKey) :
  StringSigCache.newSigKeyString (StringSigCache.cacheNonce s) h sig pk
    ∈ StringSigCache.validSigs s ->
  StringSigCache.needs_eviction s = false
  \/ StringSigCache.maxEntries s <= 0 \/ rand_Read e = None ->
  StringSigCache.Add s e h sig pk = s.
Proof.
  intros Hin Hcase.
  destruct (Z.le_gt_cases (StringSigCache.maxEntries s) 0) as [Hmax|Hmax].
  { now apply StringSigCacheFacts.string_Add_disabled. }
  destruct (StringSigCache.needs_eviction s) eqn:Hne.
  - destruct Hcase as [Hc|[Hc|Hc]]; [discriminate | lia |].
    now apply StringSigCacheFacts.string_Add_rand_error.
  - rewrite StringSigCacheFacts.string_Add_no_eviction by assumption.
    destruct s as [m mx n]; simpl in *. f_equal. set_solver.
Qed.

(** C4, as the code has it. Adding a triple whose key is already resident
    leaves the cache as it is when no eviction is needed (the count is
    below [maxEntries]), when the cache is disabled, or when the random
    draw fails; this holds in both variants. *)
Theorem Add_present_key_unchanged (h : bytes) (sig : Signature)
    (pk : PublicKey) (s : SigCache.SigCache) (e : env bytes)
    (s' : StringSigCache.StringSigCache) (e' : env string) :
  SigCache.newSigKey (SigCache.cacheNonce s) h sig pk
    ∈ SigCache.validSigs s ->
  SigCache.needs_eviction s = false
  \/ SigCache.maxEntries s <= 0 \/ rand_Read e = None ->
  StringSigCache.newSigKeyString (StringSigCache.cacheNonce s') h sig pk
    ∈ StringSigCache.validSigs s' ->
  StringSigCache.needs_eviction s' = false
  \/ StringSigCache.maxEntries s' <= 0 \/ rand_Read e' = None ->
  SigCache.Add s e h sig pk = s
  /\ StringSigCache.Add s' e' h sig pk = s'.
Proof.
  intros Hin Hcase Hin' Hcase'. split.
  - now apply SigCache_Add_present.
  - now apply StringSigCache_Add_present.
Qed.

(** Runs of the two variants on the same calls stay in step, with the same
    results of [Exists], as long as the zero key is neither resident nor
    derived from a triple that is added. *)
Lemma variants_agree_without_zero_key (ops : list SigCache.op) s s' :
  same_cache s s' ->
  SigCache.ops_ok s ops ->
  sigKeys_ok s ->
  SigCache.zeroKey ∉ SigCache.validSigs s ->
  (forall h sig pk,
      In (h, sig, pk) (SigCache.added ops) ->
      SigCache.newSigKey (SigCache.cacheNonce s) h sig pk
      <> SigCache.zeroKey) ->
  same_cache (fst (SigCache.run s ops)) (fst (string_run s' ops))
  /\ snd (string_run s' ops) = snd (SigCache.run s ops).
Proof.
  revert s s'.
  induction ops as [|[e h sig pk|h sig pk] ops IH]; intros s s'; simpl.
  - intros Hsame _ _ _ _. now split.
  - intros Hsame [Hok Hrest] Hwf Hzero Hadded.
    apply IH.
    + now apply same_cache_Add.
    + exact Hrest.
    + intros k Hk. apply SigCacheFacts.Add_resident in Hk as [Hk| ->].
      * now apply Hwf.
      * apply SigCacheFacts.sigKey_length.
    + intros Hk. apply SigCacheFacts.Add_resident in Hk as [Hk|Hk].
      * now apply Hzero.
      * symmetry in Hk. revert Hk. apply Hadded. now left.
    + intros h' sig' pk' Hin. rewrite SigCacheFacts.Add_cacheNonce.
      apply Hadded. now right.
  - intros Hsame Hok Hwf Hzero Hadded.
    destruct (IH s s' Hsame Hok Hwf Hzero Hadded) as [Hs Ho].
    destruct (SigCache.run s ops) as [s1 o1].
    destruct (string_run s' ops) as [s2 o2]. simpl in *.
    split; [exact Hs|]. f_equal; [|exact Ho].
    now apply same_cache_Exists.
Qed.

End BothVariants.

End Variants.

(** ** The operations on concrete caches *)

Module Scenarios.
Import TestData.

#[local] Existing Instance wire_btcec.

Example keyA_value :
  keyA
  = of_hex "39b1c54d822bbc35ac8fbfe7ecc89aed371dbb2675d6ee572d2c322e15f1438a".
Proof. by_evaluation. Qed.

Example fresh_is_new (maxEntries : Z) :
  SigCache.NewSigCache maxEntries (Some nonce0) = Some (fresh maxEntries).
Proof. reflexivity. Qed.

(** The caches of the scenarios below are reached by [Add] from a new
    cache. *)
Example cacheAB_reached :
  fst (SigCache.run (fresh 2) [addA (no_draw []); addB (no_draw [keyA])])
  = cacheAB.
Proof. by_evaluation. Qed.

(** The scenario of the specification: capacity two, A and B added, then
    C: two entries stay, one of A and B is evicted, C is found. *)
Example scenario_two_entries :
  SigCache.run (fresh 2)
    [ addA (no_draw []); addB (no_draw [keyA]);
      SigCache.OpExists hashA sigA pubA; SigCache.OpExists hashB sigB pubB;
      SigCache.OpExists hashC sigC pubC;
      addC (draw lowest [keyB; keyA]);
      SigCache.OpExists hashC sigC pubC ]
  = ({| SigCache.validSigs := {[ keyA; keyC ]};
        SigCache.maxEntries := 2;
        SigCache.cacheNonce := nonce0 |},
     [true; true; false; true]).
Proof. by_evaluation. Qed.

(** Counterexample to C4 as stated: the key of A is resident in the full
    cache [cacheAB]; adding A again, with a draw below every key and B
    visited first, evicts B: the count goes from 2 to 1 and B is no longer
    found. *)
Lemma Add_present_key_evicts :
  let e := draw lowest [keyB; keyA] in
  let s' := SigCache.Add cacheAB e hashA sigA pubA in
  SigCache.newSigKey (SigCache.cacheNonce cacheAB) hashA sigA pubA
    ∈ SigCache.validSigs cacheAB
  /\ range_ok (SigCache.validSigs cacheAB) (range_order e)
  /\ len (SigCache.validSigs cacheAB) = 2
  /\ len (SigCache.validSigs s') = 1
  /\ SigCache.Exists cacheAB hashB sigB pubB = true
  /\ SigCache.Exists s' hashB sigB pubB = false
  /\ SigCache.validSigs s' <> SigCache.validSigs cacheAB.
Proof.
  intros e s'.
  assert (H1 : len (SigCache.validSigs s') = 1) by by_evaluation.
  assert (H2 : len (SigCache.validSigs cacheAB) = 2) by by_evaluation.
  split; [by_decision|]. split; [by_decision|].
  split; [exact H2|]. split; [exact H1|].
  split; [by_evaluation|]. split; [by_evaluation|].
  intros Heq. rewrite Heq, H2 in H1. discriminate H1.
Qed.



(** *** The theorems at concrete inputs *)

Lemma capacity_bound_witness :
  let ops :=
    [ addA (no_draw []); addB (no_draw [keyA]);
      addC (draw lowest [keyA; keyB]) ] in
  SigCache.ops_ok (fresh 2) ops
  /\ len (SigCache.validSigs (fst (SigCache.run (fresh 2) ops))) <= 2.
Proof.
  intros ops.
  assert (Hok : SigCache.ops_ok (fresh 2) ops) by by_decision.
  split; [exact Hok|].
  apply (SigCacheFacts.capacity_bound 2 (Some nonce0) (fresh 2) ops).
  - unfold MaxUint. lia.
  - left. unfold MaxUint. lia.
  - reflexivity.
  - exact Hok.
Defined.

Lemma Add_then_Exists_witness :
  SigCache.Exists
    (SigCache.Add cacheAB (draw lowest [keyB; keyA]) hashC sigC pubC)
    hashC sigC pubC
  = true.
Proof.
  apply (SigCacheFacts.Add_then_Exists (btcec := wire_btcec)).
  - simpl. lia.
  - right. discriminate.
Defined.

Lemma Add_rand_error_unchanged_witness :
  SigCache.needs_eviction cacheAB = true
  /\ SigCache.Add cacheAB (no_draw [keyA; keyB]) hashC sigC pubC = cacheAB.
Proof.
  assert (Hne : SigCache.needs_eviction cacheAB = true) by by_evaluation.
  split; [exact Hne|].
  apply (SigCacheFacts.Add_rand_error_unchanged (btcec := wire_btcec)).
  - simpl. lia.
  - exact Hne.
  - reflexivity.
Defined.

Lemma disabled_cache_inert_witness :
  SigCache.NewSigCache 0 (Some nonce0) = Some (fresh 0)
  /\ SigCache.Add (fresh 0) (no_draw []) hashA sigA pubA = fresh 0
  /\ fst (SigCache.run (fresh 0) [addA (no_draw [])]) = fresh 0
  /\ Forall (fun b => b = false)
       (snd (SigCache.run (fresh 0) [addA (no_draw [])]))
  /\ SigCache.Exists
       (fst (SigCache.run (fresh 0) [addA (no_draw [])])) hashA sigA pubA
     = false.
Proof.
  split; [reflexivity|].
  apply (SigCacheFacts.disabled_cache_inert (btcec := wire_btcec)
           (Some nonce0) (fresh 0) (fresh 0) (no_draw [])
           [addA (no_draw [])] hashA sigA pubA eq_refl eq_refl).
Defined.


Lemma zero_key_first_not_evicted_witness :
  let e := draw highest [SigCache.zeroKey; keyB] in
  exists k2 rest',
    [keyB] = k2 :: rest'
    /\ k2 <> SigCache.zeroKey
    /\ SigCache.scan highest (range_order e) SigCache.zeroKey = k2
    /\ SigCache.validSigs (SigCache.Add cacheZB e hashC sigC pubC)
       = SigCache.validSigs cacheZB ∖ {[ k2 ]}
         ∪ {[ SigCache.newSigKey (SigCache.cacheNonce cacheZB)
                hashC sigC pubC ]}
    /\ SigCache.zeroKey
       ∈ SigCache.validSigs (SigCache.Add cacheZB e hashC sigC pubC).
Proof.
  intros e.
  apply (SigCacheFacts.zero_key_first_not_evicted (btcec := wire_btcec)
           cacheZB e hashC sigC pubC highest [keyB]).
  - simpl. lia.
  - by_evaluation.
  - reflexivity.
  - by_decision.
  - intros k Hk. simpl in Hk.
    apply elem_of_union in Hk as [Hk|Hk];
      apply elem_of_singleton in Hk; subst k;
      vm_compute; intros Hgt; discriminate Hgt.
  - reflexivity.
  - discriminate.
Defined.

Lemma Add_present_key_unchanged_witness :
  SigCache.Add cacheA (draw lowest [keyA]) hashA sigA pubA = cacheA
  /\ StringSigCache.Add stringCacheA
       (string_env (draw lowest [keyA])) hashA sigA pubA
     = stringCacheA.
Proof.
  apply (Variants.Add_present_key_unchanged (btcec := wire_btcec)).
  - by_decision.
  - left. by_evaluation.
  - by_decision.
  - left. by_evaluation.
Defined.

End Scenarios.

(** * Further properties of the two files *)

(** ** Counting the keys of a map *)

Lemma len_insert_new `{Countable K} (m : gset K) (k : K) :
  k ∉ m -> len (m ∪ {[ k ]}) = len m + 1.
Proof.
  intros Hk. unfold len.
  rewrite size_union by set_solver. rewrite size_singleton. lia.
Qed.

Lemma len_insert_old `{Countable K} (m : gset K) (k : K) :
  k ∈ m -> len (m ∪ {[ k ]}) = len m.
Proof.
  intros Hk. unfold len. f_equal. f_equal. set_solver.
Qed.

Lemma len_delete `{Countable K} (m : gset K) (v : K) :
  v ∈ m -> len (m ∖ {[ v ]}) = len m - 1.
Proof.
  intros Hv. unfold len.
  rewrite size_difference by set_solver. rewrite size_singleton.
  assert (size m <> 0%nat).
  { intros Hz. apply size_empty_inv in Hz. set_solver. }
  lia.
Qed.

Lemma len_insert_le `{Countable K} (m : gset K) (k : K) :
  len (m ∪ {[ k ]}) <= len m + 1.
Proof.
  destruct (decide (k ∈ m)) as [Hk|Hk].
  - rewrite len_insert_old by assumption. lia.
  - rewrite len_insert_new by assumption. lia.
Qed.

Lemma range_ok_nonempty `{Countable K} (m : gset K) (order : list K) :
  range_ok m order -> 0 < len m -> order <> [].
Proof.
  intros Hok Hpos Hnil. apply range_ok_length in Hok.
  rewrite Hnil in Hok. simpl in Hok. lia.
Qed.

(** ** [sigcache.go], further *)

Module SigCacheMore.
Import SigCache SigCacheFacts.

Section More.
Context {btcec : Btcec}.
Implicit Types (s : SigCache) (e : env sigKey).


(** The key an evicting [Add] deletes is resident. *)
Lemma victim_resident s e (r : bytes) :
  range_ok (validSigs s) (range_order e) ->
  0 < len (validSigs s) ->
  scan r (range_order e) zeroKey ∈ validSigs s.
Proof.
  intros Hok Hpos.
  apply (range_ok_elem_of _ (range_order e)); [assumption|].
  apply scan_visits. now apply (range_ok_nonempty (validSigs s)).
Qed.

(** X2. Eviction frees exactly one slot: on a full cache, an [Add] of a
    key that is not resident, with a successful draw, leaves the count
    equal to [maxEntries]. *)
Theorem Add_full_stays_full s e h sig pk (r : bytes) :
  1 <= maxEntries s < MaxUint ->
  len (validSigs s) = maxEntries s ->
  rand_Read e = Some r ->
  range_ok (validSigs s) (range_order e) ->
  newSigKey (cacheNonce s) h sig pk ∉ validSigs s ->
  len (validSigs (Add s e h sig pk)) = maxEntries s.
Proof.
  intros Hmax Hfull Hr Hok Hnew.
  rewrite (Add_eviction _ _ _ _ _ r);
    [|lia | apply full_needs_eviction; lia | assumption].
  simpl. rewrite len_insert_new by set_solver.
  rewrite len_delete by (apply victim_resident; [assumption | lia]). lia.
Qed.

(** X3. [Add] removes at most one key: whatever the state, the draw and the
    order, all resident keys but at most one are still resident after
    [Add], and the count drops by at most one. *)
Theorem Add_evicts_at_most_one s e h sig pk :
  exists v,
    validSigs s ∖ {[ v ]} ⊆ validSigs (Add s e h sig pk)
    /\ len (validSigs s) - 1 <= len (validSigs (Add s e h sig pk)).
Proof.
  assert (Hmono : forall (a b : gset sigKey), a ⊆ b -> len a <= len b).
  { intros a b Hab. unfold len. apply subseteq_size in Hab. lia. }
  assert (Hdel : forall (m : gset sigKey) v, len m - 1 <= len (m ∖ {[ v ]})).
  { intros m v. destruct (decide (v ∈ m)) as [Hv|Hv].
    - rewrite len_delete by assumption. lia.
    - replace (m ∖ {[ v ]}) with m by set_solver. lia. }
  unfold Add. destruct (maxEntries s <=? 0).
  { exists zeroKey. split; [set_solver|lia]. }
  destruct (_ >? _); [destruct (rand_Read e) as [r|]|]; simpl.
  - set (v := scan r (range_order e) zeroKey).
    exists v. split; [set_solver|].
    pose proof (Hdel (validSigs s) v).
    pose proof (Hmono (validSigs s ∖ {[ v ]}) (validSigs s ∖ {[ v ]} ∪
      {[ newSigKey (cacheNonce s) h sig pk ]}) ltac:(set_solver)). lia.
  - exists zeroKey. split; [set_solver|lia].
  - exists zeroKey. split; [set_solver|].
    pose proof (Hmono (validSigs s) (validSigs s ∪
      {[ newSigKey (cacheNonce s) h sig pk ]}) ltac:(set_solver)). lia.
Qed.

(** X4. Below capacity [Add] evicts nothing and does not depend on the
    random source or on the iteration order: every resident key stays, a
    new key raises the count by exactly one and a resident key leaves the
    cache as it is counted. *)
Theorem Add_below_capacity s e e' h sig pk :
  1 <= maxEntries s ->
  needs_eviction s = false ->
  let key := newSigKey (cacheNonce s) h sig pk in
  validSigs s ⊆ validSigs (Add s e h sig pk)
  /\ Add s e h sig pk = Add s e' h sig pk
  /\ len (validSigs (Add s e h sig pk))
     = (if decide (key ∈ validSigs s)
        then len (validSigs s) else len (validSigs s) + 1).
Proof.
  intros Hmax Hne key.
  rewrite !Add_no_eviction by (assumption || lia). simpl. fold key.
  split; [set_solver|]. split; [reflexivity|].
  destruct (decide (key ∈ validSigs s)).
  - now apply len_insert_old.
  - now apply len_insert_new.
Qed.

(** X5. When some key is greater than the draw, the key evicted is the
    first such key in the order of the iteration, whether or not the zero
    key is resident; it is greater than the draw, and after [Add] it is
    resident only if it is the key just added. *)
Theorem Add_evicts_first_greater s e h sig pk (r : bytes) (v : sigKey) :
  1 <= maxEntries s ->
  needs_eviction s = true ->
  rand_Read e = Some r ->
  first_greater r (range_order e) = Some v ->
  bytes_Compare v r > 0
  /\ validSigs (Add s e h sig pk)
     = validSigs s ∖ {[ v ]} ∪ {[ newSigKey (cacheNonce s) h sig pk ]}
  /\ (v ∈ validSigs (Add s e h sig pk) ->
      v = newSigKey (cacheNonce s) h sig pk).
Proof.
  intros Hmax Hne Hr Hfg.
  assert (Hgt : bytes_Compare v r > 0).
  { unfold first_greater in Hfg. apply find_some in Hfg as [_ Hgt].
    apply Z.gtb_gt in Hgt. lia. }
  assert (Hadd : validSigs (Add s e h sig pk)
    = validSigs s ∖ {[ v ]} ∪ {[ newSigKey (cacheNonce s) h sig pk ]}).
  { rewrite (Add_eviction _ _ _ _ _ r) by (assumption || lia). simpl.
    now rewrite scan_found, Hfg. }
  split; [exact Hgt|]. split; [exact Hadd|].
  rewrite Hadd. set_solver.
Qed.

(** X6. A cache of capacity one holds, after an [Add] that evicts, exactly
    the key just added: the single resident key is evicted whatever it is
    (the zero key as well) and whatever the draw. *)
Theorem Add_capacity_one s e h sig pk (r : bytes) :
  maxEntries s = 1 ->
  len (validSigs s) = 1 ->
  rand_Read e = Some r ->
  range_ok (validSigs s) (range_order e) ->
  validSigs (Add s e h sig pk) = {[ newSigKey (cacheNonce s) h sig pk ]}.
Proof.
  intros Hmax Hlen Hr Hok.
  rewrite (Add_eviction _ _ _ _ _ r);
    [|lia | apply full_needs_eviction; unfold MaxUint; lia | assumption].
  simpl.
  pose proof (range_ok_length _ _ Hok) as Hl. rewrite Hlen in Hl.
  destruct (range_order e) as [|x [|y rest]] eqn:Horder;
    simpl in Hl; try lia.
  assert (Hscan : scan r [x] zeroKey = x).
  { simpl. now destruct (_ >? 0). }
  rewrite Hscan. destruct Hok as [_ Hset]. simpl in Hset.
  rewrite <- Hset. set_solver.
Qed.

(** X7. No call changes the bound or the nonce of a cache: after any run
    they are the ones the cache started with. *)
Theorem run_keeps_bound_and_nonce s (ops : list op) :
  maxEntries (fst (run s ops)) = maxEntries s
  /\ cacheNonce (fst (run s ops)) = cacheNonce s.
Proof. split; [apply run_maxEntries | apply run_cacheNonce]. Qed.

(** The zero key is not resident after a run that starts without it and
    adds no triple deriving it. *)
Lemma run_without_zero_key (ops : list op) s :
  zeroKey ∉ validSigs s ->
  (forall h sig pk,
      In (h, sig, pk) (added ops) ->
      newSigKey (cacheNonce s) h sig pk <> zeroKey) ->
  zeroKey ∉ validSigs (fst (run s ops)).
Proof.
  intros Hzero Hadded Hin.
  destruct (run_resident _ _ _ Hin) as [Hs|(h & sig & pk & Ha & Heq)].
  - now apply Hzero.
  - symmetry in Heq. revert Heq. now apply Hadded.
Qed.

(** With a bound of at least one, an eviction is needed only on a cache
    that is not empty. *)
Lemma needs_eviction_nonempty s :
  1 <= maxEntries s -> needs_eviction s = true -> 0 < len (validSigs s).
Proof.
  intros Hmax Hne. pose proof (len_nonneg (validSigs s)) as Hnn.
  destruct (Z.eq_dec (len (validSigs s)) 0) as [Hz|Hz]; [|lia].
  unfold needs_eviction in Hne. rewrite Hz in Hne.
  change (uint (int_add 0 1)) with 1 in Hne.
  apply Z.gtb_gt in Hne. lia.
Qed.

(** X8. On a cache built by [NewSigCache] and used with triples none of
    which derives the zero key, every [Add] that evicts, after any run,
    evicts the documented victim: the first key greater than the draw,
    else the first key visited. *)
Theorem reached_Add_evicts_documented (maxEntries0 : Z) (rnd : option bytes)
    s0 (ops : list op) e h sig pk (r : bytes) :
  NewSigCache maxEntries0 rnd = Some s0 ->
  (forall h' sig' pk',
      In (h', sig', pk') (added ops) ->
      newSigKey (cacheNonce s0) h' sig' pk' <> zeroKey) ->
  let s := fst (run s0 ops) in
  1 <= maxEntries s ->
  needs_eviction s = true ->
  rand_Read e = Some r ->
  range_ok (validSigs s) (range_order e) ->
  exists v,
    documented_victim r (range_order e) = Some v
    /\ v ∈ validSigs s
    /\ validSigs (Add s e h sig pk)
       = validSigs s ∖ {[ v ]} ∪ {[ newSigKey (cacheNonce s) h sig pk ]}.
Proof.
  intros Hnew Hadded s Hmax Hne Hr Hok.
  pose proof (needs_eviction_nonempty s Hmax Hne) as Hpos.
  assert (Hzero : zeroKey ∉ validSigs s).
  { apply run_without_zero_key; [|assumption].
    destruct rnd; [|discriminate]. injection Hnew as <-. simpl. set_solver. }
  pose proof (range_ok_nonempty _ _ Hok Hpos) as Hnil.
  destruct (range_order e) as [|x rest] eqn:Horder; [congruence|].
  assert (Hx : x ∈ validSigs s).
  { apply (range_ok_elem_of _ (x :: rest)); [assumption | left]. }
  destruct (Add_evicts_documented s e h sig pk r x rest)
    as (v & Hv & Hadd); try assumption.
  { intros ->. now apply Hzero. }
  exists v. rewrite Horder in Hv. split; [exact Hv|]. split; [|exact Hadd].
  apply (range_ok_elem_of _ (x :: rest)); [assumption|].
  unfold documented_victim, first_greater in Hv.
  destruct (List.find _ (x :: rest)) eqn:Hf.
  - injection Hv as <-. apply find_some in Hf as [Hin _].
    now apply list_elem_of_In.
  - simpl in Hv. injection Hv as <-. left.
Qed.

(** X16. An [Add] that evicts removes a key that is resident, whatever the
    state of the cache (the zero key may be resident): the cache then holds
    the keys it held, without that one key, and the key just added. *)
Theorem Add_evicts_a_resident_key s e h sig pk (r : bytes) :
  1 <= maxEntries s ->
  needs_eviction s = true ->
  rand_Read e = Some r ->
  range_ok (validSigs s) (range_order e) ->
  exists v,
    v ∈ validSigs s
    /\ In v (range_order e)
    /\ validSigs (Add s e h sig pk)
       = validSigs s ∖ {[ v ]} ∪ {[ newSigKey (cacheNonce s) h sig pk ]}.
Proof.
  intros Hmax Hne Hr Hok.
  pose proof (needs_eviction_nonempty s Hmax Hne) as Hpos.
  pose proof (victim_resident s e r Hok Hpos) as Hv.
  exists (scan r (range_order e) zeroKey). split; [exact Hv|]. split.
  - apply list_elem_of_In. now apply (range_ok_elem_of (validSigs s)).
  - now rewrite (Add_eviction _ _ _ _ _ r) by (assumption || lia).
Qed.

End More.

End SigCacheMore.

(** ** [sigcache_string.go], further *)

Module StringSigCacheMore.
Import StringSigCache StringSigCacheFacts.

Lemma string_length_of_list_byte (l : bytes) :
  String.length (string_of_list_byte l) = length l.
Proof.
  induction l as [|b l IH]; [reflexivity|].
  cbn [string_of_list_byte List.map string_of_list_ascii String.length
       length]. unfold string_of_list_byte in IH. now rewrite IH.
Qed.

Lemma string_scan_keeps_or_visits (r : bytes) (order : list string)
    (f : string) :
  scan r order f = f \/ scan r order f ∈ order.
Proof.
  revert f. induction order as [|x rest IH]; intros f; simpl.
  - now left.
  - destruct (_ >? 0).
    + right. left.
    + destruct (IH (if decide (f = EmptyString) then x else f))
        as [Heq|Hin].
      * rewrite Heq.
        destruct (decide (f = EmptyString)); [right; left | now left].
      * right. now right.
Qed.

(** On a map that is not empty the loop always picks a resident key. *)
Lemma string_scan_visits (r : bytes) (order : list string) :
  order <> [] -> scan r order EmptyString ∈ order.
Proof.
  destruct order as [|x rest]; [congruence|]. intros _. simpl.
  destruct (_ >? 0); [left|].
  destruct (string_scan_keeps_or_visits r rest x) as [-> | Hin];
    [left | now right].
Qed.

Section More.
Context {btcec : Btcec}.
Implicit Types (s : StringSigCache) (e : env string).

Lemma string_Add_maxEntries s e h sig pk :
  maxEntries (Add s e h sig pk) = maxEntries s.
Proof.
  unfold Add. destruct (maxEntries s <=? 0); [reflexivity|].
  destruct (_ >? _); [destruct (rand_Read e)|]; reflexivity.
Qed.

Lemma string_Add_cacheNonce s e h sig pk :
  cacheNonce (Add s e h sig pk) = cacheNonce s.
Proof.
  unfold Add. destruct (maxEntries s <=? 0); [reflexivity|].
  destruct (_ >? _); [destruct (rand_Read e)|]; reflexivity.
Qed.

Lemma string_run_cacheNonce s (ops : list StringOps.op) :
  cacheNonce (fst (StringOps.run s ops)) = cacheNonce s.
Proof.
  revert s. induction ops as [|[e h sig pk|h sig pk] ops IH]; intros s; simpl.
  - reflexivity.
  - rewrite IH. apply string_Add_cacheNonce.
  - specialize (IH s). destruct (StringOps.run s ops). exact IH.
Qed.

Lemma string_needs_eviction_nonempty s :
  1 <= maxEntries s -> needs_eviction s = true -> 0 < len (validSigs s).
Proof.
  intros Hmax Hne. pose proof (len_nonneg (validSigs s)) as Hnn.
  destruct (Z.eq_dec (len (validSigs s)) 0) as [Hz|Hz]; [|lia].
  unfold needs_eviction in Hne. rewrite Hz in Hne.
  change (uint (int_add 0 1)) with 1 in Hne.
  apply Z.gtb_gt in Hne. lia.
Qed.


(** One [Add] keeps the count within the bound, as long as [len + 1] does
    not wrap. *)
Lemma string_Add_within_bound s e h sig pk :
  range_ok (validSigs s) (range_order e) ->
  len (validSigs s) < MaxUint ->
  len (validSigs s) <= maxEntries s ->
  len (validSigs (Add s e h sig pk)) <= maxEntries s
  /\ len (validSigs (Add s e h sig pk)) <= len (validSigs s) + 1.
Proof.
  intros Hok Hfit Hinv.
  pose proof (len_nonneg (validSigs s)) as Hnn.
  destruct (Z.le_gt_cases (maxEntries s) 0) as [Hmax|Hmax].
  { rewrite string_Add_disabled by assumption. lia. }
  destruct (needs_eviction s) eqn:Hne.
  - destruct (rand_Read e) as [r|] eqn:Hr.
    + rewrite (string_Add_eviction _ _ _ _ _ r) by assumption. simpl.
      pose proof (string_needs_eviction_nonempty s ltac:(lia) Hne) as Hpos.
      assert (Hin : scan r (range_order e) EmptyString ∈ validSigs s).
      { apply (range_ok_elem_of _ (range_order e)); [assumption|].
        apply string_scan_visits.
        now apply (range_ok_nonempty (validSigs s)). }
      pose proof (len_delete _ _ Hin) as Hdel.
      pose proof (len_insert_le
        (validSigs s ∖ {[ scan r (range_order e) EmptyString ]})
        (newSigKeyString (cacheNonce s) h sig pk)).
      unfold needs_eviction in Hne.
      rewrite uint_len_succ in Hne by assumption.
      apply Z.gtb_gt in Hne. lia.
    + rewrite string_Add_rand_error by assumption. lia.
  - rewrite string_Add_no_eviction by assumption. simpl.
    unfold needs_eviction in Hne. rewrite uint_len_succ in Hne by assumption.
    pose proof (len_insert_le (validSigs s)
                  (newSigKeyString (cacheNonce s) h sig pk)).
    destruct (Z.gtb_spec (len (validSigs s) + 1) (maxEntries s));
      [discriminate | lia].
Qed.

Lemma string_run_within_bound (ops : list StringOps.op) s :
  StringOps.ops_ok s ops ->
  maxEntries s < MaxUint
  \/ len (validSigs s) + Z.of_nat (length ops) <= MaxUint ->
  len (validSigs s) <= maxEntries s ->
  len (validSigs (fst (StringOps.run s ops))) <= maxEntries s.
Proof.
  revert s. induction ops as [|[e h sig pk|h sig pk] ops IH]; intros s; simpl.
  - intros _ _ Hinv. exact Hinv.
  - intros [Hok Hrest] Hfit Hinv.
    assert (Hlt : len (validSigs s) < MaxUint) by lia.
    destruct (string_Add_within_bound s e h sig pk Hok Hlt Hinv) as [Hb Hg].
    rewrite <- (string_Add_maxEntries s e h sig pk).
    apply IH; [assumption | | ];
      rewrite string_Add_maxEntries; [lia | assumption].
  - intros Hok Hfit Hinv. specialize (IH s Hok).
    destruct (StringOps.run s ops) as [s' outs]. simpl in *.
    apply IH; [lia | assumption].
Qed.

(** X10. After any run of calls on a cache built by [NewStringSigCache],
    the number of resident keys does not exceed [maxEntries] (a [uint];
    [len + 1] is computed without wrap-around when [maxEntries] is not the
    largest [uint] or the run has at most that many calls). *)
Theorem string_capacity_bound (maxEntries0 : Z) (rnd : option bytes) s0
    (ops : list StringOps.op) :
  0 <= maxEntries0 <= MaxUint ->
  maxEntries0 < MaxUint \/ Z.of_nat (length ops) <= MaxUint ->
  NewStringSigCache maxEntries0 rnd = Some s0 ->
  StringOps.ops_ok s0 ops ->
  len (validSigs (fst (StringOps.run s0 ops))) <= maxEntries0.
Proof.
  intros Hrange Hfit Hnew Hok.
  destruct rnd as [nonce|]; [|discriminate]. injection Hnew as <-.
  apply (string_run_within_bound ops _ Hok); simpl.
  - unfold len. rewrite size_empty. lia.
  - unfold len. rewrite size_empty. lia.
Qed.

(** X11. On a cache with [maxEntries >= 1], an [Add] that goes through (no
    eviction is needed, or the random draw succeeds) makes the [Exists]
    that follows it return true for the same triple. *)
Theorem string_Add_then_Exists s e h sig pk :
  1 <= maxEntries s ->
  needs_eviction s = false \/ rand_Read e <> None ->
  Exists (Add s e h sig pk) h sig pk = true.
Proof.
  intros Hmax Hgo. unfold Exists. rewrite string_Add_cacheNonce.
  apply bool_decide_eq_true_2.
  destruct (needs_eviction s) eqn:Hne.
  - destruct Hgo as [Hgo|Hgo]; [discriminate|].
    destruct (rand_Read e) as [r|] eqn:Hr; [|congruence].
    rewrite (string_Add_eviction _ _ _ _ _ r) by (assumption || lia).
    simpl. set_solver.
  - rewrite string_Add_no_eviction by (assumption || lia). simpl. set_solver.
Qed.

(** X12. [Add] leaves the cache as it is when the cache is disabled
    ([maxEntries = 0]) and when an eviction is needed but the random source
    fails; [Exists] then answers as before for every triple. *)
Theorem string_Add_declined s e h sig pk h' sig' pk' :
  maxEntries s <= 0 \/ (needs_eviction s = true /\ rand_Read e = None) ->
  Add s e h sig pk = s
  /\ Exists (Add s e h sig pk) h' sig' pk' = Exists s h' sig' pk'.
Proof.
  intros Hcase.
  assert (Heq : Add s e h sig pk = s).
  { destruct Hcase as [Hmax|[Hne Hr]].
    - now apply string_Add_disabled.
    - now apply string_Add_rand_error. }
  now rewrite Heq.
Qed.

(** A key resident after a run was resident before it or was derived from
    a triple passed to [Add] during the run. *)
Lemma string_run_resident (ops : list StringOps.op) s (k : string) :
  k ∈ validSigs (fst (StringOps.run s ops)) ->
  k ∈ validSigs s
  \/ exists h sig pk,
       In (h, sig, pk) (StringOps.added ops)
       /\ k = newSigKeyString (cacheNonce s) h sig pk.
Proof.
  revert s. induction ops as [|[e h sig pk|h sig pk] ops IH]; intros s; simpl.
  - now left.
  - intros Hk. destruct (IH _ Hk) as [Hin|(h' & sig' & pk' & Hin & ->)].
    + destruct (string_Add_resident _ _ _ _ _ _ Hin) as [Hs| ->];
        [now left|].
      right. exists h, sig, pk. split; [now left | reflexivity].
    + right. exists h', sig', pk'. rewrite string_Add_cacheNonce.
      split; [now right | reflexivity].
  - specialize (IH s). destruct (StringOps.run s ops). exact IH.
Qed.

Lemma newSigKeyString_length (nonce h : bytes) (sig : Signature)
    (pk : PublicKey) :
  String.length (newSigKeyString nonce h sig pk) = HashSize.
Proof.
  rewrite newSigKeyString_Sum256, string_length_of_list_byte.
  apply Sum256_length.
Qed.

(** X13. On a cache built by [NewStringSigCache], after any run of calls,
    [Exists] returns true for a triple only if the key of that triple was
    derived from a triple passed to [Add] during the run. *)
Theorem string_Exists_only_added (maxEntries0 : Z) (rnd : option bytes) s0
    (ops : list StringOps.op) (h : bytes) (sig : Signature)
    (pk : PublicKey) :
  NewStringSigCache maxEntries0 rnd = Some s0 ->
  Exists (fst (StringOps.run s0 ops)) h sig pk = true ->
  exists h' sig' pk',
    In (h', sig', pk') (StringOps.added ops)
    /\ newSigKeyString (cacheNonce s0) h' sig' pk'
       = newSigKeyString (cacheNonce s0) h sig pk.
Proof.
  intros Hnew Hex. unfold Exists in Hex.
  apply bool_decide_eq_true_1 in Hex. rewrite string_run_cacheNonce in Hex.
  destruct (string_run_resident _ _ _ Hex)
    as [Hin|(h' & sig' & pk' & Hin & Heq)].
  - destruct rnd; [|discriminate]. injection Hnew as <-.
    simpl in Hin. set_solver.
  - exists h', sig', pk'. split; [assumption | now symmetry].
Qed.

(** X14. Every key resident after a run on a cache built by
    [NewStringSigCache] is a string of 32 bytes, so never the empty string
    with which the eviction loop marks [foundEntry] as not yet set; hence
    every [Add] that evicts, after any run, evicts the documented victim:
    the first key greater than the draw, else the first key visited. *)
Theorem string_reached_Add_evicts_documented (maxEntries0 : Z)
    (rnd : option bytes) s0 (ops : list StringOps.op) e h sig pk
    (r : bytes) :
  NewStringSigCache maxEntries0 rnd = Some s0 ->
  let s := fst (StringOps.run s0 ops) in
  1 <= maxEntries s ->
  needs_eviction s = true ->
  rand_Read e = Some r ->
  range_ok (validSigs s) (range_order e) ->
  stringKeys_ok s
  /\ exists v,
       documented_victim r (List.map list_byte_of_string (range_order e))
       = Some (list_byte_of_string v)
       /\ v ∈ validSigs s
       /\ validSigs (Add s e h sig pk)
          = validSigs s ∖ {[ v ]}
            ∪ {[ newSigKeyString (cacheNonce s) h sig pk ]}.
Proof.
  intros Hnew s Hmax Hne Hr Hok.
  assert (Hkeys : stringKeys_ok s).
  { intros k Hk. destruct (string_run_resident _ _ _ Hk)
      as [Hin|(h' & sig' & pk' & _ & ->)].
    - destruct rnd; [|discriminate]. injection Hnew as <-.
      simpl in Hin. set_solver.
    - apply newSigKeyString_length. }
  split; [exact Hkeys|].
  pose proof (string_needs_eviction_nonempty s Hmax Hne) as Hpos.
  pose proof (range_ok_nonempty _ _ Hok Hpos) as Hnil.
  exists (scan r (range_order e) EmptyString). split; [|split].
  - symmetry. apply string_scan_documented; [assumption|].
    apply Forall_forall. intros k Hk Hempty.
    apply (range_ok_elem_of _ _ k Hok) in Hk.
    specialize (Hkeys k Hk). rewrite Hempty in Hkeys. discriminate.
  - apply (range_ok_elem_of _ (range_order e)); [assumption|].
    now apply string_scan_visits.
  - now rewrite (string_Add_eviction _ _ _ _ _ r) by (assumption || lia).
Qed.

End More.

End StringSigCacheMore.

(** ** The two files on the same calls *)

Module VariantsMore.

Section More.
Context {btcec : Btcec}.

(** X15. Built with the same bound and the same nonce and given the same
    calls, with the same draws and the keys visited in the same order, the
    two caches return the same results of [Exists] and end with the same
    keys, as long as no triple that is added derives the zero key. *)
Theorem new_caches_agree (maxEntries0 : Z) (rnd : option bytes)
    (s0 : SigCache.SigCache) (s0' : StringSigCache.StringSigCache)
    (ops : list SigCache.op) :
  SigCache.NewSigCache maxEntries0 rnd = Some s0 ->
  StringSigCache.NewStringSigCache maxEntries0 rnd = Some s0' ->
  SigCache.ops_ok s0 ops ->
  (forall h sig pk,
      In (h, sig, pk) (SigCache.added ops) ->
      SigCache.newSigKey (SigCache.cacheNonce s0) h sig pk
      <> SigCache.zeroKey) ->
  snd (string_run s0' ops) = snd (SigCache.run s0 ops)
  /\ same_cache (fst (SigCache.run s0 ops)) (fst (string_run s0' ops)).
Proof.
  intros Hnew Hnew' Hok Hadded.
  assert (Hinit : SigCache.validSigs s0 = ∅
    /\ StringSigCache.validSigs s0' = ∅
    /\ StringSigCache.maxEntries s0' = SigCache.maxEntries s0
    /\ StringSigCache.cacheNonce s0' = SigCache.cacheNonce s0).
  { destruct rnd as [nonce|]; [|discriminate].
    injection Hnew as <-. injection Hnew' as <-. now repeat split. }
  destruct Hinit as (Hv & Hv' & Hm & Hn).
  destruct (Variants.variants_agree_without_zero_key ops s0 s0')
    as [Hs Ho].
  - split; [|split; assumption]. rewrite Hv, Hv'. now rewrite set_map_empty.
  - exact Hok.
  - intros k Hk. rewrite Hv in Hk. set_solver.
  - rewrite Hv. set_solver.
  - exact Hadded.
  - now split.
Qed.

End More.

End VariantsMore.

(** ** The further properties at concrete inputs *)

Module MoreScenarios.
Import TestData StringTestData.

#[local] Existing Instance wire_btcec.


Lemma Add_full_stays_full_witness :
  len (SigCache.validSigs
         (SigCache.Add cacheAB (draw lowest [keyB; keyA]) hashC sigC pubC))
  = SigCache.maxEntries cacheAB.
Proof.
  apply (SigCacheMore.Add_full_stays_full (btcec := wire_btcec)
           cacheAB (draw lowest [keyB; keyA]) hashC sigC pubC lowest).
  - simpl. unfold MaxUint. lia.
  - by_evaluation.
  - reflexivity.
  - by_decision.
  - by_decision.
Defined.

Lemma Add_below_capacity_witness :
  SigCache.Add cacheA (no_draw [keyA]) hashB sigB pubB
  = SigCache.Add cacheA (draw lowest [keyA]) hashB sigB pubB.
Proof.
  apply (SigCacheMore.Add_below_capacity (btcec := wire_btcec)
           cacheA (no_draw [keyA]) (draw lowest [keyA]) hashB sigB pubB).
  - simpl. lia.
  - by_evaluation.
Defined.

Lemma Add_evicts_first_greater_witness :
  SigCache.validSigs
    (SigCache.Add cacheAB (draw lowest [keyB; keyA]) hashC sigC pubC)
  = SigCache.validSigs cacheAB ∖ {[ keyB ]}
    ∪ {[ SigCache.newSigKey (SigCache.cacheNonce cacheAB) hashC sigC pubC ]}.
Proof.
  apply (SigCacheMore.Add_evicts_first_greater (btcec := wire_btcec)
           cacheAB (draw lowest [keyB; keyA]) hashC sigC pubC lowest keyB).
  - simpl. lia.
  - by_evaluation.
  - reflexivity.
  - by_evaluation.
Defined.

Lemma Add_capacity_one_witness :
  SigCache.validSigs
    (SigCache.Add cacheZ (draw highest [SigCache.zeroKey]) hashA sigA pubA)
  = {[ SigCache.newSigKey (SigCache.cacheNonce cacheZ) hashA sigA pubA ]}.
Proof.
  apply (SigCacheMore.Add_capacity_one (btcec := wire_btcec)
           cacheZ (draw highest [SigCache.zeroKey]) hashA sigA pubA highest).
  - reflexivity.
  - by_evaluation.
  - reflexivity.
  - by_decision.
Defined.

Lemma reached_Add_evicts_documented_witness :
  let s :=
    fst (SigCache.run (fresh 2) [addA (no_draw []); addB (no_draw [keyA])]) in
  let e := draw highest [keyA; keyB] in
  exists v,
    documented_victim highest (range_order e) = Some v
    /\ v ∈ SigCache.validSigs s
    /\ SigCache.validSigs (SigCache.Add s e hashC sigC pubC)
       = SigCache.validSigs s ∖ {[ v ]}
         ∪ {[ SigCache.newSigKey (SigCache.cacheNonce s) hashC sigC pubC ]}.
Proof.
  intros s e.
  apply (SigCacheMore.reached_Add_evicts_documented (btcec := wire_btcec)
           2 (Some nonce0) (fresh 2)
           [addA (no_draw []); addB (no_draw [keyA])]
           e hashC sigC pubC highest).
  - reflexivity.
  - simpl. intros h' sig' pk' [Heq|[Heq|[]]] Hkey;
      injection Heq as <- <- <-; vm_compute in Hkey; discriminate Hkey.
  - apply Z.leb_le. by_evaluation.
  - by_evaluation.
  - reflexivity.
  - by_decision.
Defined.

Lemma Add_evicts_a_resident_key_witness :
  let e := draw highest [SigCache.zeroKey; keyB] in
  exists v,
    v ∈ SigCache.validSigs cacheZB
    /\ In v (range_order e)
    /\ SigCache.validSigs (SigCache.Add cacheZB e hashC sigC pubC)
       = SigCache.validSigs cacheZB ∖ {[ v ]}
         ∪ {[ SigCache.newSigKey (SigCache.cacheNonce cacheZB)
                hashC sigC pubC ]}.
Proof.
  intros e.
  apply (SigCacheMore.Add_evicts_a_resident_key (btcec := wire_btcec)
           cacheZB e hashC sigC pubC highest).
  - simpl. lia.
  - by_evaluation.
  - reflexivity.
  - by_decision.
Defined.


Lemma string_capacity_bound_witness :
  let ops :=
    [ saddA (sno_draw []); saddB (sno_draw [skeyA]);
      saddC (sdraw lowest [skeyA; skeyB]) ] in
  StringOps.ops_ok (sfresh 2) ops
  /\ len (StringSigCache.validSigs (fst (StringOps.run (sfresh 2) ops))) <= 2.
Proof.
  intros ops.
  assert (Hok : StringOps.ops_ok (sfresh 2) ops) by by_decision.
  split; [exact Hok|].
  apply (StringSigCacheMore.string_capacity_bound
           2 (Some nonce0) (sfresh 2) ops).
  - unfold MaxUint. lia.
  - left. unfold MaxUint. lia.
  - reflexivity.
  - exact Hok.
Defined.

Lemma string_Add_then_Exists_witness :
  StringSigCache.Exists
    (StringSigCache.Add stringCacheAB (sdraw lowest [skeyB; skeyA])
       hashC sigC pubC)
    hashC sigC pubC
  = true.
Proof.
  apply (StringSigCacheMore.string_Add_then_Exists (btcec := wire_btcec)).
  - simpl. lia.
  - right. discriminate.
Defined.

Lemma string_Add_declined_witness :
  StringSigCache.Add stringCacheAB (sno_draw [skeyA; skeyB]) hashC sigC pubC
  = stringCacheAB
  /\ StringSigCache.Exists
       (StringSigCache.Add stringCacheAB (sno_draw [skeyA; skeyB])
          hashC sigC pubC) hashB sigB pubB
     = StringSigCache.Exists stringCacheAB hashB sigB pubB.
Proof.
  apply (StringSigCacheMore.string_Add_declined (btcec := wire_btcec)).
  right. split; [by_evaluation | reflexivity].
Defined.

Lemma string_Exists_only_added_witness :
  exists h' sig' pk',
    In (h', sig', pk') (StringOps.added [saddA (sno_draw [])])
    /\ StringSigCache.newSigKeyString
         (StringSigCache.cacheNonce (sfresh 2)) h' sig' pk'
       = StringSigCache.newSigKeyString
           (StringSigCache.cacheNonce (sfresh 2)) hashA sigA pubA.
Proof.
  apply (StringSigCacheMore.string_Exists_only_added (btcec := wire_btcec)
           2 (Some nonce0) (sfresh 2) [saddA (sno_draw [])]
           hashA sigA pubA).
  - reflexivity.
  - by_evaluation.
Defined.

Lemma string_reached_Add_evicts_documented_witness :
  let s :=
    fst (StringOps.run (sfresh 2)
           [saddA (sno_draw []); saddB (sno_draw [skeyA])]) in
  let e := sdraw highest [skeyA; skeyB] in
  stringKeys_ok s
  /\ exists v,
       documented_victim highest
         (List.map list_byte_of_string (range_order e))
       = Some (list_byte_of_string v)
       /\ v ∈ StringSigCache.validSigs s
       /\ StringSigCache.validSigs (StringSigCache.Add s e hashC sigC pubC)
          = StringSigCache.validSigs s ∖ {[ v ]}
            ∪ {[ StringSigCache.newSigKeyString
                   (StringSigCache.cacheNonce s) hashC sigC pubC ]}.
Proof.
  intros s e.
  apply (StringSigCacheMore.string_reached_Add_evicts_documented
           (btcec := wire_btcec) 2 (Some nonce0) (sfresh 2)
           [saddA (sno_draw []); saddB (sno_draw [skeyA])]
           e hashC sigC pubC highest).
  - reflexivity.
  - apply Z.leb_le. by_evaluation.
  - by_evaluation.
  - reflexivity.
  - by_decision.
Defined.

Lemma new_caches_agree_witness :
  let ops :=
    [ addA (no_draw []); addB (no_draw [keyA]);
      SigCache.OpExists hashA sigA pubA;
      addC (draw lowest [keyB; keyA]);
      SigCache.OpExists hashB sigB pubB ] in
  snd (string_run (sfresh 2) ops) = snd (SigCache.run (fresh 2) ops)
  /\ same_cache (fst (SigCache.run (fresh 2) ops))
                (fst (string_run (sfresh 2) ops)).
Proof.
  intros ops.
  apply (VariantsMore.new_caches_agree (btcec := wire_btcec)
           2 (Some nonce0) (fresh 2) (sfresh 2) ops).
  - reflexivity.
  - reflexivity.
  - by_decision.
  - simpl. intros h' sig' pk' [Heq|[Heq|[Heq|[]]]] Hkey;
      injection Heq as <- <- <-; vm_compute in Hkey; discriminate Hkey.
Defined.

End MoreScenarios.
